(** * Retrieval utilities: the cached Wikipedia lookup of [src/retrieval.py]

    The module has two functions: [_open_book_search_cached], wrapped in
    [functools.lru_cache(maxsize=128)], and the public [open_book_search],
    which deep-copies every record of the cached tuple into a fresh list.

    The model is an object-level one.  Values parsed from JSON live in a heap
    of mutable objects (Python lists and dicts) addressed by location, the
    cache holds references into that heap, and [copy.deepcopy] allocates new
    objects.  The network is an oracle that answers every request, indexed by
    the number of requests issued so far; every request is recorded in a log.

    The interpreter's recursion limit is modelled where it can stop a call:
    [copy.deepcopy] follows the nesting of a record down to a depth [lim],
    which the caller's environment sets, and raises [RecursionError] below
    it.  A document the JSON decoder cannot decode, for its nesting or
    anything else, is a body that is not JSON.

    Left out: exceptions that do not derive from [Exception] (an interrupt)
    and threads.  A string is the sequence of its characters, one [ascii]
    each.
*)

From Stdlib Require Import ZArith String List Lia.
From stdpp Require Import base tactics option list strings.

Local Open Scope string_scope.
Local Open Scope list_scope.

(** ** JSON documents and Python objects *)

(** What [Response.json()] can yield, as a tree.  Object entries are kept in
    insertion order with distinct keys.  Numbers are integers here: no
    operation of the module looks inside a number. *)
#[local] Unset Elimination Schemes.
Inductive json : Type :=
  | JNull
  | JBool (b : bool)
  | JNum (z : Z)
  | JStr (s : string)
  | JArr (items : list json)
  | JObj (entries : list (string * json)).
#[local] Set Elimination Schemes.

(** Induction over a document reaches the items of arrays and the values of
    objects. *)
Section json_tree.
Variable P : json -> Prop.
Hypothesis Hnull : P JNull.
Hypothesis Hbool : forall b, P (JBool b).
Hypothesis Hnum : forall z, P (JNum z).
Hypothesis Hstr : forall s, P (JStr s).
Hypothesis Harr : forall ts, Forall P ts -> P (JArr ts).
Hypothesis Hobj : forall kvs, Forall (fun kv => P kv.2) kvs -> P (JObj kvs).

Fixpoint json_induction (t : json) : P t :=
  match t with
  | JNull => Hnull
  | JBool b => Hbool b
  | JNum z => Hnum z
  | JStr s => Hstr s
  | JArr ts =>
      Harr ts ((fix all (l : list json) : Forall P l :=
                  match l with
                  | [] => List.Forall_nil P
                  | t :: r => @List.Forall_cons _ P t r (json_induction t) (all r)
                  end) ts)
  | JObj kvs =>
      Hobj kvs ((fix all (l : list (string * json)) :
                   Forall (fun kv => P kv.2) l :=
                   match l with
                   | [] => List.Forall_nil _
                   | kv :: r =>
                       @List.Forall_cons _ (fun kv => P kv.2) kv r
                         (json_induction kv.2) (all r)
                   end) kvs)
  end.
End json_tree.

(** How many levels a document has: 1 for an atom and for an empty array
    or object, one more than the deepest item otherwise.  It is the number
    of calls of [copy.deepcopy], one inside the other, that a copy of the
    document makes. *)
Fixpoint nesting (t : json) : nat :=
  match t with
  | JArr ts => S (max_list_with nesting ts)
  | JObj kvs => S (max_list_with (fun kv : string * json => nesting kv.2) kvs)
  | _ => 1
  end.

(** No document of [ts] goes deeper than [lim]. *)
Definition shallow (lim : nat) (ts : list json) : Prop :=
  Forall (fun t => nesting t <= lim) ts.

Definition loc := nat.

(** A Python value: an immutable atom held by value, or a reference to a
    mutable object. *)
Inductive pyval : Type :=
  | VNone
  | VBool (b : bool)
  | VInt (z : Z)
  | VStr (s : string)
  | VRef (l : loc).

Inductive pyobj : Type :=
  | OList (items : list pyval)
  | ODict (entries : list (string * pyval)).

(** The heap: the object at location [l] is the [l]-th element; allocation
    appends. *)
Abbreviation heap := (list pyobj).

Definition alloc (o : pyobj) (h : heap) : pyval * heap :=
  (VRef (length h), h ++ [o]).

(** The exceptions the module's code can meet; all derive from
    [Exception].  [RequestException] stands for whatever [requests.get]
    raises (connection error, timeout, ...), [HTTPError] is raised by
    [raise_for_status], [JSONDecodeError] by [Response.json()],
    [RecursionError] by [copy.deepcopy] on a value nested deeper than the
    interpreter's recursion limit lets it follow. *)
Inductive exn : Type :=
  | RequestException
  | HTTPError
  | JSONDecodeError
  | AttributeError
  | IndexError
  | KeyError
  | TypeError
  | RecursionError.

Inductive outcome (A : Type) : Type :=
  | Ret (a : A)
  | Raise (e : exn).
Arguments Ret {A} a.
Arguments Raise {A} e.

(** ** Threading a heap through a list *)

Section thread.
Context {A B S : Type} (f : A -> S -> B * S).

Fixpoint thread (l : list A) (s : S) : list B * S :=
  match l with
  | [] => ([], s)
  | a :: r =>
      let '(b, s1) := f a s in
      let '(bs, s2) := thread r s1 in
      (b :: bs, s2)
  end.
End thread.

(** The same for a step that can raise, or have no result at all: the first
    item that raises ends the walk. *)
Section thread_opt.
Context {A B S : Type} (f : A -> S -> option (outcome B * S)).

Fixpoint thread_opt (l : list A) (s : S) : option (outcome (list B) * S) :=
  match l with
  | [] => Some (Ret [], s)
  | a :: r =>
      match f a s with
      | Some (Ret b, s1) =>
          match thread_opt r s1 with
          | Some (Ret bs, s2) => Some (Ret (b :: bs), s2)
          | Some (Raise e, s2) => Some (Raise e, s2)
          | None => None
          end
      | Some (Raise e, s1) => Some (Raise e, s1)
      | None => None
      end
  end.
End thread_opt.

Fixpoint all2 {A B : Type} (f : A -> B -> bool) (l : list A) (k : list B)
    {struct k} : bool :=
  match k, l with
  | [], [] => true
  | b :: k', a :: l' => f a b && all2 f l' k'
  | _, _ => false
  end.

(** ** Building objects from a parsed document *)

Definition build_entry (f : json -> heap -> pyval * heap)
    (kv : string * json) (h : heap) : (string * pyval) * heap :=
  let '(v, h1) := f kv.2 h in ((kv.1, v), h1).

(** [json.loads]: every array becomes a new list object and every object a
    new dict; a container is allocated once its items exist. *)
Fixpoint build (t : json) (h : heap) : pyval * heap :=
  match t with
  | JNull => (VNone, h)
  | JBool b => (VBool b, h)
  | JNum z => (VInt z, h)
  | JStr s => (VStr s, h)
  | JArr ts =>
      let '(vs, h1) := thread build ts h in alloc (OList vs) h1
  | JObj kvs =>
      let '(es, h1) := thread (build_entry build) kvs h in alloc (ODict es) h1
  end.

(** ** What a value denotes *)

Definition below (l : loc) (v : pyval) : bool :=
  match v with
  | VRef l' => bool_decide (l' < l)
  | _ => true
  end.

Definition bound (v : pyval) : nat :=
  match v with
  | VRef l => S l
  | _ => 0
  end.

(** [represents lo h v t]: in heap [h] the value [v] denotes the tree [t],
    through objects at locations [lo] and above, each allocated after the
    objects it refers to. *)
Fixpoint represents (lo : loc) (h : heap) (v : pyval) (t : json) : bool :=
  match t, v with
  | JNull, VNone => true
  | JBool b, VBool b' => bool_decide (b = b')
  | JNum z, VInt z' => bool_decide (z = z')
  | JStr s, VStr s' => bool_decide (s = s')
  | JArr ts, VRef l =>
      bool_decide (lo <= l) &&
      match h !! l with
      | Some (OList vs) =>
          all2 (fun v t => below l v && represents lo h v t) vs ts
      | _ => false
      end
  | JObj kvs, VRef l =>
      bool_decide (lo <= l) &&
      match h !! l with
      | Some (ODict es) =>
          all2 (fun (e : string * pyval) (kv : string * json) =>
                  bool_decide (e.1 = kv.1) && below l e.2 &&
                  represents lo h e.2 kv.2) es kvs
      | _ => false
      end
  | _, _ => false
  end.

(** ** The network, the cache and the program state *)

(** The two requests the module issues.  The summary path is the fixed
    prefix followed by the formatted title: [Some s] for a title that is the
    string [s]; the text Python's [str()] gives any other object is left
    out. *)
Inductive request : Type :=
  | SearchGet (search : string) (limit : Z)
  | SummaryGet (title : option string).

(** What comes back: [requests.get] raises, or yields a response with a
    status code and a body; [body = None] is a body that is not JSON. *)
Inductive reply : Type :=
  | Failed
  | Response (status : Z) (body : option json).

Record response : Type := { status_code : Z; body : option json }.

Definition key : Type := string * Z.

(** The cache lists its entries from least to most recently used.  A cached
    tuple is immutable and is held by value: the list of references to its
    records. *)
Record state : Type := {
  objects : heap;
  cache : list (key * list pyval);
  log : list request
}.

Definition init_state : state := {| objects := []; cache := []; log := [] |}.

Definition set_objects (h : heap) (st : state) : state :=
  {| objects := h; cache := cache st; log := log st |}.
Definition set_cache (c : list (key * list pyval)) (st : state) : state :=
  {| objects := objects st; cache := c; log := log st |}.
Definition add_log (r : request) (st : state) : state :=
  {| objects := objects st; cache := cache st; log := log st ++ [r] |}.

(** A computation returns a value or raises, in a new state; [None] is a
    computation that has no behaviour in the model: it followed a reference
    to no object. *)
Definition M (A : Type) : Type := state -> option (outcome A * state).

Definition ret {A} (a : A) : M A := fun st => Some (Ret a, st).
Definition raise {A} (e : exn) : M A := fun st => Some (Raise e, st).
Definition bind {A B} (m : M A) (k : A -> M B) : M B := fun st =>
  match m st with
  | Some (Ret a, st1) => k a st1
  | Some (Raise e, st1) => Some (Raise e, st1)
  | None => None
  end.

Notation "'let*' x := m 'in' k" := (bind m (fun x => k))
  (at level 10, x name, m at level 100, k at level 200).

(** [try: m / except Exception: handler]. *)
Definition try_except {A} (m : M A) (handler : M A) : M A := fun st =>
  match m st with
  | Some (Raise _, st1) => handler st1
  | r => r
  end.

Fixpoint for_each {A B} (f : A -> M B) (l : list A) : M (list B) :=
  match l with
  | [] => ret []
  | a :: r => let* b := f a in let* bs := for_each f r in ret (b :: bs)
  end.

Fixpoint assoc {K V} `{EqDecision K} (k : K) (l : list (K * V)) : option V :=
  match l with
  | [] => None
  | e :: r => if decide (k = e.1) then Some e.2 else assoc k r
  end.

(** The characters of a string, each a string of length one. *)
Fixpoint chars (s : string) : list string :=
  match s with
  | EmptyString => []
  | String c r => String c EmptyString :: chars r
  end.

Definition title_text (v : pyval) : option string :=
  match v with
  | VStr s => Some s
  | _ => None
  end.

(** *** Heap operations *)

Definition deref (l : loc) : M pyobj := fun st =>
  match objects st !! l with
  | Some o => Some (Ret o, st)
  | None => None
  end.

Definition new (o : pyobj) : M pyval := fun st =>
  let '(v, h) := alloc o (objects st) in Some (Ret v, set_objects h st).

Definition load (t : json) : M pyval := fun st =>
  let '(v, h) := build t (objects st) in Some (Ret v, set_objects h st).

(** [v[i]] for a non-negative integer [i]. *)
Definition getitem (v : pyval) (i : nat) : M pyval :=
  match v with
  | VStr s =>
      match chars s !! i with
      | Some c => ret (VStr c)
      | None => raise IndexError
      end
  | VRef l =>
      let* o := deref l in
      match o with
      | OList vs =>
          match vs !! i with
          | Some x => ret x
          | None => raise IndexError
          end
      | ODict _ => raise KeyError
      end
  | _ => raise TypeError
  end.

(** The items [iter(v)] yields. *)
Definition iterate (v : pyval) : M (list pyval) :=
  match v with
  | VStr s => ret (VStr <$> chars s)
  | VRef l =>
      let* o := deref l in
      match o with
      | OList vs => ret vs
      | ODict es => ret ((fun e : string * pyval => VStr e.1) <$> es)
      end
  | _ => raise TypeError
  end.

(** [v.get(k, default)]: only a dict has the method. *)
Definition get_or (v : pyval) (k : string) (default : pyval) : M pyval :=
  match v with
  | VRef l =>
      let* o := deref l in
      match o with
      | ODict es => ret (match assoc k es with Some x => x | None => default end)
      | OList _ => raise AttributeError
      end
  | _ => raise AttributeError
  end.

(** ** [copy.deepcopy] *)

Definition copy_entry (f : pyval -> heap -> option (outcome pyval * heap))
    (e : string * pyval) (h : heap) :
    option (outcome (string * pyval) * heap) :=
  match f e.2 h with
  | Some (Ret v, h1) => Some (Ret (e.1, v), h1)
  | Some (Raise x, h1) => Some (Raise x, h1)
  | None => None
  end.

(** Atoms are returned as they are; a list or a dict is copied item by item
    into a new object.  Every call of [deepcopy] takes room on the
    interpreter's stack (a frame for itself and one for the copier of the
    type), and the copy of a container calls [deepcopy] on every item from
    inside that room: [depth] is the number of calls, one inside the other,
    that the stack still has room for, and with none left the call raises
    [RecursionError].  What was allocated until then stays in the heap,
    with no reference to it.  The key of a dict entry, a string, is copied
    by a call at the level of the value; it raises only where the copy of
    the value does. *)
Fixpoint deepcopy (depth : nat) (v : pyval) (h : heap) :
    option (outcome pyval * heap) :=
  match depth with
  | O => Some (Raise RecursionError, h)
  | S d =>
      match v with
      | VRef l =>
          match h !! l with
          | Some (OList vs) =>
              match thread_opt (deepcopy d) vs h with
              | Some (Ret vs', h1) =>
                  let '(v', h2) := alloc (OList vs') h1 in Some (Ret v', h2)
              | Some (Raise x, h1) => Some (Raise x, h1)
              | None => None
              end
          | Some (ODict es) =>
              match thread_opt (copy_entry (deepcopy d)) es h with
              | Some (Ret es', h1) =>
                  let '(v', h2) := alloc (ODict es') h1 in Some (Ret v', h2)
              | Some (Raise x, h1) => Some (Raise x, h1)
              | None => None
              end
          | None => None
          end
      | _ => Some (Ret v, h)
      end
  end.

(** The call as the module makes it, where the stack has room for [lim]
    calls of [deepcopy], one inside the other.  [lim] is what the recursion
    limit leaves at the point of the call: with CPython 3.11, a little
    under 500 for the default limit of 1000 and a call from near the top of
    the stack. *)
Definition copy_deepcopy (lim : nat) (v : pyval) : M pyval := fun st =>
  match deepcopy lim v (objects st) with
  | Some (r, h) => Some (r, set_objects h st)
  | None => None
  end.

(** ** [functools.lru_cache(maxsize=128)] *)

Definition maxsize : nat := 128.

Definition drop_key (k : key) (c : list (key * list pyval)) :
    list (key * list pyval) :=
  filter (fun e => e.1 <> k) c.

(** A hit moves the entry to the most recently used end. *)
Definition lru_touch (k : key) (v : list pyval) (c : list (key * list pyval)) :
    list (key * list pyval) :=
  drop_key k c ++ [(k, v)].

(** Storing the result of a miss: nothing if the key arrived meanwhile, else
    the new entry takes the place of the least recently used one when the
    cache is full. *)
Definition lru_store (k : key) (v : list pyval) (c : list (key * list pyval)) :
    list (key * list pyval) :=
  match assoc k c with
  | Some _ => c
  | None =>
      if bool_decide (maxsize <= length c) then tail c ++ [(k, v)]
      else c ++ [(k, v)]
  end.

(** The wrapper: a hit returns the stored tuple; a miss runs the function
    and stores what it returns; an exception stores nothing. *)
Definition lru_cache (f : string -> Z -> M (list pyval))
    (query : string) (n_results : Z) : M (list pyval) := fun st =>
  let k := (query, n_results) in
  match assoc k (cache st) with
  | Some v => Some (Ret v, set_cache (lru_touch k v (cache st)) st)
  | None =>
      match f query n_results st with
      | Some (Ret v, st1) => Some (Ret v, set_cache (lru_store k v (cache st1)) st1)
      | r => r
      end
  end.

(** ** The module *)

Section retrieval.
(** [lim]: the levels [copy.deepcopy] can follow.  [net tick req]: the
    answer to [req] when [tick] requests went before. *)
Variable lim : nat.
Variable net : nat -> request -> reply.

Definition requests_get (req : request) : M response := fun st =>
  match net (length (log st)) req with
  | Failed => Some (Raise RequestException, add_log req st)
  | Response s b => Some (Ret {| status_code := s; body := b |}, add_log req st)
  end.

Definition raise_for_status (r : response) : M unit :=
  if bool_decide (400 <= status_code r < 600)%Z then raise HTTPError
  else ret tt.

Definition json_of (r : response) : M pyval :=
  match body r with
  | Some t => load t
  | None => raise JSONDecodeError
  end.

(** Lines 44-53: the summary of one title. *)
Definition fetch_summary (title : pyval) : M pyval :=
  try_except
    (let* s_resp := requests_get (SummaryGet (title_text title)) in
     if bool_decide (status_code s_resp = 200%Z) then
       let* d := json_of s_resp in get_or d "extract" (VStr "")
     else ret (VStr ""))
    (ret (VStr "")).

Definition make_record (p : pyval * pyval) : M pyval :=
  let* summary := fetch_summary p.1 in
  new (ODict [("title", p.1); ("url", p.2); ("summary", summary)]).

(** Lines 31-38: [Some data], or [None] where the handler returns the
    empty tuple. *)
Definition fetch_search (query : string) (n_results : Z) : M (option pyval) :=
  try_except
    (let* resp := requests_get (SearchGet query n_results) in
     let* _ := raise_for_status resp in
     let* data := json_of resp in
     ret (Some data))
    (ret None).

(** The function under the decorator (lines 22-55). *)
Definition search_uncached (query : string) (n_results : Z) : M (list pyval) :=
  if bool_decide (query = "") then ret []
  else
    let* fetched := fetch_search query n_results in
    match fetched with
    | None => ret []
    | Some data =>
        let* titles := getitem data 1 in
        let* urls := getitem data 3 in
        let* ts := iterate titles in
        let* us := iterate urls in
        for_each make_record (zip ts us)
    end.

Definition _open_book_search_cached : string -> Z -> M (list pyval) :=
  lru_cache search_uncached.

Definition open_book_search (query : string) (n_results : Z) : M pyval :=
  let* cached := _open_book_search_cached query n_results in
  let* copies := for_each (copy_deepcopy lim) cached in
  new (OList copies).
End retrieval.

(** ** The same computation on values

    What the function computes, read on the documents themselves: no heap,
    no references.  [search_uncached_refines] below relates the two. *)

Definition json_text (t : json) : option string :=
  match t with
  | JStr s => Some s
  | _ => None
  end.

Definition json_getitem (t : json) (i : nat) : outcome json :=
  match t with
  | JStr s =>
      match chars s !! i with
      | Some c => Ret (JStr c)
      | None => Raise IndexError
      end
  | JArr ts =>
      match ts !! i with
      | Some x => Ret x
      | None => Raise IndexError
      end
  | JObj _ => Raise KeyError
  | _ => Raise TypeError
  end.

Definition json_iter (t : json) : outcome (list json) :=
  match t with
  | JStr s => Ret (JStr <$> chars s)
  | JArr ts => Ret ts
  | JObj kvs => Ret ((fun kv : string * json => JStr kv.1) <$> kvs)
  | _ => Raise TypeError
  end.

(** The pairs the loop of line 43 runs over. *)
Definition json_pairs (data : json) : outcome (list (json * json)) :=
  match json_getitem data 1 with
  | Raise e => Raise e
  | Ret titles =>
      match json_getitem data 3 with
      | Raise e => Raise e
      | Ret urls =>
          match json_iter titles with
          | Raise e => Raise e
          | Ret ts =>
              match json_iter urls with
              | Raise e => Raise e
              | Ret us => Ret (zip ts us)
              end
          end
      end
  end.

(** The summary a reply to a summary request leaves in the record. *)
Definition summary_of (r : reply) : json :=
  match r with
  | Response s (Some (JObj kvs)) =>
      if bool_decide (s = 200%Z) then
        match assoc "extract" kvs with
        | Some t => t
        | None => JStr ""
        end
      else JStr ""
  | _ => JStr ""
  end.

Definition record (title url summary : json) : json :=
  JObj [("title", title); ("url", url); ("summary", summary)].

(** The data a search request yields, when the handler of line 37 does not
    take over. *)
Definition search_data (r : reply) : option json :=
  match r with
  | Failed => None
  | Response s b => if bool_decide (400 <= s < 600)%Z then None else b
  end.

Section values.
Variable net : nat -> request -> reply.

Fixpoint records (tick : nat) (pairs : list (json * json)) : list json :=
  match pairs with
  | [] => []
  | p :: r =>
      record p.1 p.2 (summary_of (net tick (SummaryGet (json_text p.1))))
        :: records (S tick) r
  end.

Definition search_value (tick : nat) (query : string) (n_results : Z) :
    outcome (list json) :=
  if bool_decide (query = "") then Ret []
  else
    match search_data (net tick (SearchGet query n_results)) with
    | None => Ret []
    | Some data =>
        match json_pairs data with
        | Raise e => Raise e
        | Ret pairs => Ret (records (S tick) pairs)
        end
    end.

Definition search_requests (tick : nat) (query : string) (n_results : Z) :
    list request :=
  if bool_decide (query = "") then []
  else
    SearchGet query n_results ::
    match search_data (net tick (SearchGet query n_results)) with
    | None => []
    | Some data =>
        match json_pairs data with
        | Raise _ => []
        | Ret pairs => (fun p : json * json => SummaryGet (json_text p.1)) <$> pairs
        end
    end.
End values.

(** ** Objects a value leads to *)

Definition refs (o : pyobj) : list pyval :=
  match o with
  | OList vs => vs
  | ODict es => es.*2
  end.

(** [reachable h v l]: the object at [l] can be reached from [v], and so can
    be changed by whoever holds [v]. *)
Inductive reachable (h : heap) : pyval -> loc -> Prop :=
  | reach_here l : reachable h (VRef l) l
  | reach_step l o v l' :
      h !! l = Some o -> v ∈ refs o -> reachable h v l' ->
      reachable h (VRef l) l'.

(** ** The invariant of the cache *)

(** A stored tuple denotes a sequence of documents, and an empty query
    stores the empty tuple. *)
Definition entry_ok (h : heap) (e : key * list pyval) : Prop :=
  (e.1.1 = "" -> e.2 = []) /\
  exists ts, Forall2 (fun v t => represents 0 h v t = true) e.2 ts.

(** Keys are distinct, there are at most [maxsize] of them, and every entry
    is as above. *)
Definition cache_inv (h : heap) (c : list (key * list pyval)) : Prop :=
  NoDup (c.*1) /\ length c <= maxsize /\ Forall (entry_ok h) c.

Definition cache_ok (st : state) : Prop := cache_inv (objects st) (cache st).

(** A run of calls, whatever each returns or raises. *)
Fixpoint run_calls (lim : nat) (net : nat -> request -> reply)
    (calls : list key) (st : state) : option state :=
  match calls with
  | [] => Some st
  | k :: r =>
      match open_book_search lim net k.1 k.2 st with
      | Some (_, st1) => run_calls lim net r st1
      | None => None
      end
  end.

(** ** Histories of use *)

(** A call used its key when the decorated function returned: a hit reads
    the entry and a miss stores one.  That is so when the call returns, and
    when the copy of line 72 raises [RecursionError]: the tuple was handed
    over before.  A call that raises anything else, raises it from inside
    the decorated function and leaves the cache as it was. *)
Definition uses_key (r : outcome pyval) : bool :=
  match r with
  | Ret _ | Raise RecursionError => true
  | Raise _ => false
  end.

(** The keys of the calls of a run that used their key, in order. *)
Fixpoint used_keys (lim : nat) (net : nat -> request -> reply)
    (calls : list key) (st : state) : list key :=
  match calls with
  | [] => []
  | k :: r =>
      match open_book_search lim net k.1 k.2 st with
      | Some (res, st1) =>
          (if uses_key res then [k] else []) ++ used_keys lim net r st1
      | None => []
      end
  end.

Definition lastn {A} (m : nat) (l : list A) : list A := drop (length l - m) l.

(** The [m] most recently used keys of a history, least recently used
    first: [remove_dups] keeps the last occurrence of every key. *)
Definition most_recent (m : nat) (uses : list key) : list key :=
  lastn m (remove_dups uses).

Definition lru_state (st : state) (hist : list key) : Prop :=
  cache_ok st /\ (cache st).*1 = most_recent maxsize hist.

(** ** Replies that count as failures *)

(** The search request fails: [requests.get] raises, or the status is one
    [raise_for_status] rejects. *)
Definition search_fails (r : reply) : Prop :=
  match r with
  | Failed => True
  | Response s _ => (400 <= s < 600)%Z
  end.

(** The summary request fails: [requests.get] raises, or the status is not
    200. *)
Definition summary_fails (r : reply) : Prop :=
  match r with
  | Failed => True
  | Response s _ => s <> 200%Z
  end.

(** ** Sample networks *)

(** A depth that the default recursion limit of 1000 leaves to a copy: a
    record of strings has two levels. *)
Definition sample_limit : nat := 400.

Definition opensearch (query : string) (titles urls : list json) : json :=
  JArr [JStr query; JArr titles; JArr ((fun _ => JStr "") <$> titles); JArr urls].

Definition extract_of (text : string) : reply :=
  Response 200 (Some (JObj [("title", JStr "T"); ("extract", JStr text)])).

(** Titles A and B, both summaries served. *)
Definition net_ab (tick : nat) (req : request) : reply :=
  match req with
  | SearchGet query _ =>
      Response 200
        (Some (opensearch query [JStr "A"; JStr "B"] [JStr "u1"; JStr "u2"]))
  | SummaryGet (Some "A") => extract_of "sA"
  | SummaryGet (Some "B") => extract_of "sB"
  | SummaryGet _ => Response 404 None
  end.

(** The same, but the summary of B is not found. *)
Definition net_a_only (tick : nat) (req : request) : reply :=
  match req with
  | SearchGet query _ =>
      Response 200
        (Some (opensearch query [JStr "A"; JStr "B"] [JStr "u1"; JStr "u2"]))
  | SummaryGet (Some "A") => extract_of "sA"
  | SummaryGet _ => Response 404 None
  end.

(** Three titles for one URL. *)
Definition net_uneven (tick : nat) (req : request) : reply :=
  match req with
  | SearchGet query _ =>
      Response 200
        (Some (JArr [JStr query; JArr [JStr "A"; JStr "B"; JStr "C"];
                     JArr []; JArr [JStr "u1"]]))
  | SummaryGet _ => extract_of "s"
  end.

(** The state one call for "q" leaves behind on [net_ab]. *)
Definition state_ab : state :=
  Eval vm_compute in
    match open_book_search sample_limit net_ab "q" 3 init_state with
    | Some (_, st) => st
    | None => init_state
    end.

(** The caller then rewrites the first record it was given (location 8)
    and appends an object of its own. *)
Definition state_ab_mutated : state :=
  set_objects
    (<[8 := ODict [("title", VStr "changed"); ("extra", VRef 8)]]>
       (objects state_ab) ++ [OList [VRef 10]])
    state_ab.

(** [m] calls with the empty query and the counts 0, 1, ..., [m - 1]: as
    many distinct keys, and no request. *)
Definition many_keys (m : nat) : list key :=
  (fun i : nat => ("", Z.of_nat i)) <$> seq 0 m.

(** No connection at all. *)
Definition net_down (tick : nat) (req : request) : reply := Failed.

(** The API answers 200 with an error object, as MediaWiki does for a
    request it rejects. *)
Definition net_error (tick : nat) (req : request) : reply :=
  Response 200
    (Some (JObj [("error", JObj [("code", JStr "badvalue")]);
                 ("servedby", JStr "mw")])).

(** ** Shapes of payloads and results *)

(** A document Python can neither subscript nor iterate. *)
Definition scalar (t : json) : bool :=
  match t with
  | JNull | JBool _ | JNum _ => true
  | _ => false
  end.


(** A body from which line 51 gets no summary: not JSON, not an object, or
    an object without the key [extract]. *)
Definition no_extract (b : option json) : Prop :=
  match b with
  | Some (JObj kvs) => assoc "extract" kvs = None
  | _ => True
  end.


(** ** More sample networks *)

(** The state the call leaves behind when [net_error] makes it raise. *)
Definition state_error : state :=
  Eval vm_compute in
    match open_book_search sample_limit net_error "q" 3 init_state with
    | Some (_, st) => st
    | None => init_state
    end.

(** The state a second call for "q" leaves behind on [net_ab]. *)
Definition state_ab2 : state :=
  Eval vm_compute in
    match open_book_search sample_limit net_ab "q" 3 state_ab with
    | Some (_, st) => st
    | None => init_state
    end.

(** The state a call for another query leaves behind after [state_ab], on a
    network that is down. *)
Definition state_ab3 : state :=
  Eval vm_compute in
    match open_book_search sample_limit net_down "other" 3 state_ab with
    | Some (_, st) => st
    | None => init_state
    end.

(** A search payload of three items. *)
Definition net_short (tick : nat) (req : request) : reply :=
  Response 200 (Some (JArr [JStr "q"; JArr [JStr "A"]; JArr [JStr ""]])).

(** A search payload that is a number. *)
Definition net_number (tick : nat) (req : request) : reply :=
  Response 200 (Some (JNum 7)).

(** Element 3 of the search payload is [null]. *)
Definition net_null_urls (tick : nat) (req : request) : reply :=
  Response 200 (Some (JArr [JStr "q"; JArr [JStr "A"]; JArr [JStr ""]; JNull])).

(** A search payload that is a string. *)
Definition net_string (tick : nat) (req : request) : reply :=
  match req with
  | SearchGet _ _ => Response 200 (Some (JStr "wxyz"))
  | SummaryGet _ => extract_of "s"
  end.


(** Element 1 of the search payload is an object. *)
Definition net_keyed (tick : nat) (req : request) : reply :=
  match req with
  | SearchGet _ _ =>
      Response 200
        (Some (JArr [JStr "q"; JObj [("A", JNum 1); ("B", JNum 2)]; JNull;
                     JArr [JStr "u1"; JStr "u2"]]))
  | SummaryGet _ => extract_of "s"
  end.

(** The summary of A is served without [extract], that of B with a [null]
    one. *)
Definition net_odd_summaries (tick : nat) (req : request) : reply :=
  match req with
  | SearchGet query _ =>
      Response 200
        (Some (opensearch query [JStr "A"; JStr "B"] [JStr "u1"; JStr "u2"]))
  | SummaryGet (Some "A") => Response 200 (Some (JObj [("title", JStr "A")]))
  | SummaryGet _ => Response 200 (Some (JObj [("extract", JNull)]))
  end.

(** The search endpoint answers 200 with a page that is not JSON. *)
Definition net_html (tick : nat) (req : request) : reply := Response 200 None.

(** [d] arrays, one inside the other, around [null]. *)
Fixpoint nested (d : nat) : json :=
  match d with
  | O => JNull
  | S d' => JArr [nested d']
  end.

(** The summary of A is served with an [extract] nested 500 deep. *)
Definition net_deep (tick : nat) (req : request) : reply :=
  match req with
  | SearchGet query _ =>
      Response 200 (Some (opensearch query [JStr "A"] [JStr "u1"]))
  | SummaryGet _ => Response 200 (Some (JObj [("extract", nested 500)]))
  end.

(** The state one call leaves behind on [net_deep], where the copy
    raises. *)
Definition state_deep : state :=
  Eval vm_compute in
    match open_book_search sample_limit net_deep "q" 3 init_state with
    | Some (_, st) => st
    | None => init_state
    end.

(** What the proofs below show of every document: [build] allocates a
    representation of it; [deepcopy] allocates another one above the heap it
    starts from when the document has no more levels than the stack has
    room for, and raises [RecursionError] when it has more. *)
Definition builds (t : json) : Prop :=
  forall h, exists v ext,
    build t h = (v, h ++ ext) /\ represents (length h) (h ++ ext) v t = true.

Definition copies (t : json) : Prop :=
  forall lo h v depth,
    represents lo h v t = true ->
    exists r ext,
      deepcopy depth v h = Some (r, h ++ ext) /\
      ((nesting t <= depth /\
        exists v', r = Ret v' /\
                   represents (length h) (h ++ ext) v' t = true) \/
       (depth < nesting t /\ r = Raise RecursionError)).

(** What copying values that denote [ts] comes to, [lim] levels deep: the
    copies, in a heap [h] and above [lo]; or [RecursionError]. *)
Definition copied_all (lim : nat) (lo : loc) (h : heap) (ts : list json)
    (r : outcome (list pyval)) : Prop :=
  (shallow lim ts /\
   exists vs, r = Ret vs /\
              Forall2 (fun v t => represents lo h v t = true) vs ts) \/
  (~ shallow lim ts /\ r = Raise RecursionError).

(** The same for the list line 72 builds of the copies. *)
Definition copied (lim : nat) (lo : loc) (h : heap) (ts : list json)
    (r : outcome pyval) : Prop :=
  (shallow lim ts /\
   exists v, r = Ret v /\ represents lo h v (JArr ts) = true) \/
  (~ shallow lim ts /\ r = Raise RecursionError).

(** * Properties *)

(** ** Lists and denotation *)

Lemma all2_Forall2 {A B} (f : A -> B -> bool) l k :
  all2 f l k = true <-> Forall2 (fun a b => f a b = true) l k.
Proof.
  revert l. induction k as [|b k IH]; intros [|a l]; simpl.
  - split; [constructor | done].
  - split; [done | inversion 1].
  - split; [done | inversion 1].
  - rewrite andb_true_iff, IH. split.
    + intros [? ?]. by constructor.
    + inversion 1; subst. done.
Qed.

Lemma Forall2_Forall_r {A B} (P : B -> Prop) (R R' : A -> B -> Prop) l k :
  Forall P k -> Forall2 R l k ->
  (forall a b, P b -> R a b -> R' a b) -> Forall2 R' l k.
Proof.
  intros HP HR Himpl. revert HP.
  induction HR; intros HP; inversion HP; subst; constructor; auto.
Qed.

Lemma below_bound l v : below l v = true <-> bound v <= l.
Proof.
  destruct v; simpl; try (split; [lia | done]).
  rewrite bool_decide_eq_true. lia.
Qed.

Lemma represents_arr lo h v ts :
  represents lo h v (JArr ts) = true <->
  exists l vs, v = VRef l /\ lo <= l /\ h !! l = Some (OList vs) /\
    Forall2 (fun v t => below l v = true /\ represents lo h v t = true) vs ts.
Proof.
  destruct v; simpl; try (split; [done | by intros (? & ? & ? & _)]).
  rewrite andb_true_iff, bool_decide_eq_true. split.
  - intros [Hlo H]. destruct (h !! l) as [[vs|]|] eqn:E; try done.
    exists l, vs. split_and!; try done.
    apply all2_Forall2 in H. eapply Forall2_impl; [done|].
    intros ?? ?%andb_true_iff. done.
  - intros (l' & vs & [= <-] & Hlo & -> & H). split; [done|].
    apply all2_Forall2. eapply Forall2_impl; [done|].
    simpl. intros ?? [-> ->]. done.
Qed.

Lemma represents_obj lo h v kvs :
  represents lo h v (JObj kvs) = true <->
  exists l es, v = VRef l /\ lo <= l /\ h !! l = Some (ODict es) /\
    Forall2 (fun (e : string * pyval) (kv : string * json) =>
               e.1 = kv.1 /\ below l e.2 = true /\
               represents lo h e.2 kv.2 = true) es kvs.
Proof.
  destruct v; simpl; try (split; [done | by intros (? & ? & ? & _)]).
  rewrite andb_true_iff, bool_decide_eq_true. split.
  - intros [Hlo H]. destruct (h !! l) as [[|es]|] eqn:E; try done.
    exists l, es. split_and!; try done.
    apply all2_Forall2 in H. eapply Forall2_impl; [done|].
    intros ?? [[?%bool_decide_eq_true ?]%andb_true_iff ?]%andb_true_iff. done.
  - intros (l' & es & [= <-] & Hlo & -> & H). split; [done|].
    apply all2_Forall2. eapply Forall2_impl; [done|].
    simpl. intros ?? (-> & -> & ->). by rewrite bool_decide_eq_true_2.
Qed.

Lemma represents_bound lo h v t :
  represents lo h v t = true -> bound v <= length h.
Proof.
  destruct v; simpl; try lia. intros H.
  destruct t; try done.
  - apply represents_arr in H as (? & ? & [= <-] & _ & H%lookup_lt_Some & _). lia.
  - apply represents_obj in H as (? & ? & [= <-] & _ & H%lookup_lt_Some & _). lia.
Qed.

Lemma represents_mono lo lo' h ext v t :
  lo' <= lo -> represents lo h v t = true ->
  represents lo' (h ++ ext) v t = true.
Proof.
  intros Hlo. revert v.
  induction t as [| | | |ts IH|kvs IH] using json_induction; intros v H; try (by destruct v).
  - apply represents_arr in H as (l & vs & -> & ? & Hl & F).
    apply represents_arr. exists l, vs.
    split_and!; [done | lia | by apply lookup_app_l_Some |].
    eapply Forall2_Forall_r; [exact IH | exact F |].
    simpl. intros a b Hb [? ?]. auto.
  - apply represents_obj in H as (l & es & -> & ? & Hl & F).
    apply represents_obj. exists l, es.
    split_and!; [done | lia | by apply lookup_app_l_Some |].
    eapply Forall2_Forall_r; [exact IH | exact F |].
    simpl. intros a b Hb (? & ? & ?). auto.
Qed.

Lemma represents_app lo h ext v t :
  represents lo h v t = true -> represents lo (h ++ ext) v t = true.
Proof. by apply represents_mono. Qed.

Lemma represents_lower lo lo' h v t :
  lo' <= lo -> represents lo h v t = true -> represents lo' h v t = true.
Proof.
  intros Hlo H. rewrite <- (app_nil_r h). by eapply represents_mono.
Qed.

(** A value denotes at most one document. *)
Lemma represents_unique lo lo' h v t t' :
  represents lo h v t = true -> represents lo' h v t' = true -> t = t'.
Proof.
  revert v t'.
  induction t as [| | | |ts IH|kvs IH] using json_induction; intros v t' H H'.
  - by destruct v, t'.
  - destruct v, t'; try done. simpl in *.
    apply bool_decide_eq_true in H, H'. congruence.
  - destruct v, t'; try done. simpl in *.
    apply bool_decide_eq_true in H, H'. congruence.
  - destruct v, t'; try done. simpl in *.
    apply bool_decide_eq_true in H, H'. congruence.
  - apply represents_arr in H as (l & vs & -> & _ & Hl & F).
    destruct t' as [| | | |ts'|kvs']; try done.
    + apply represents_arr in H' as (l' & vs' & [= <-] & _ & Hl' & F').
      rewrite Hl in Hl'. simplify_eq. f_equal.
      clear Hl. revert ts' F'.
      induction F as [|v t vs ts [_ Hv] F IHF]; intros ts' F'.
      * by apply Forall2_nil_inv_l in F'.
      * apply Forall2_cons_inv_l in F' as (t' & ts'' & [_ Hv'] & F' & ->).
        apply Forall_cons in IH as [IHt IH].
        f_equal; [by eapply IHt | by apply IHF].
    + apply represents_obj in H' as (l' & es' & [= <-] & _ & Hl' & _).
      rewrite Hl in Hl'. simplify_eq.
  - apply represents_obj in H as (l & es & -> & _ & Hl & F).
    destruct t' as [| | | |ts'|kvs']; try done.
    + apply represents_arr in H' as (l' & vs' & [= <-] & _ & Hl' & _).
      rewrite Hl in Hl'. simplify_eq.
    + apply represents_obj in H' as (l' & es' & [= <-] & _ & Hl' & F').
      rewrite Hl in Hl'. simplify_eq. f_equal.
      clear Hl. revert kvs' F'.
      induction F as [|e kv es kvs (Hk & _ & Hv) F IHF]; intros kvs' F'.
      * by apply Forall2_nil_inv_l in F'.
      * apply Forall2_cons_inv_l in F' as (kv' & kvs'' & (Hk' & _ & Hv') & F' & ->).
        apply Forall_cons in IH as [IHt IH].
        f_equal; [|by apply IHF].
        destruct kv, kv'. simpl in *. f_equal; [congruence | by eapply IHt].
Qed.

Lemma represents_text lo h v t :
  represents lo h v t = true -> title_text v = json_text t.
Proof.
  destruct t, v; simpl; try done.
  by intros ->%bool_decide_eq_true.
Qed.

(** ** Building and copying *)

Lemma thread_build_spec ts :
  Forall builds ts ->
  forall h, exists vs ext,
    thread build ts h = (vs, h ++ ext) /\
    Forall2 (fun v t => represents (length h) (h ++ ext) v t = true) vs ts.
Proof.
  induction 1 as [|t ts Ht _ IH]; intros h; simpl.
  - exists [], []. rewrite app_nil_r. split; [done | constructor].
  - destruct (Ht h) as (v & e1 & -> & Hv).
    destruct (IH (h ++ e1)) as (vs & e2 & -> & Hvs).
    exists (v :: vs), (e1 ++ e2). rewrite app_assoc. split; [done|].
    constructor; [by apply represents_app|].
    eapply Forall2_impl; [done|]. simpl. intros a b Hab.
    eapply represents_lower; [|done]. rewrite length_app. lia.
Qed.

Lemma thread_build_entry_spec kvs :
  Forall (fun kv : string * json => builds kv.2) kvs ->
  forall h, exists es ext,
    thread (build_entry build) kvs h = (es, h ++ ext) /\
    Forall2 (fun (e : string * pyval) (kv : string * json) =>
               e.1 = kv.1 /\ represents (length h) (h ++ ext) e.2 kv.2 = true)
            es kvs.
Proof.
  induction 1 as [|[k t] kvs Ht _ IH]; intros h; simpl.
  - exists [], []. rewrite app_nil_r. split; [done | constructor].
  - unfold build_entry at 1. simpl in *.
    destruct (Ht h) as (v & e1 & -> & Hv).
    destruct (IH (h ++ e1)) as (es & e2 & -> & Hes).
    exists ((k, v) :: es), (e1 ++ e2). rewrite app_assoc. split; [done|].
    constructor; [split; [done | by apply represents_app]|].
    eapply Forall2_impl; [done|]. simpl. intros a b [? Hab]. split; [done|].
    eapply represents_lower; [|done]. rewrite length_app. lia.
Qed.

Lemma represents_alloc_list lo h vs ts :
  lo <= length h ->
  Forall2 (fun v t => represents lo h v t = true) vs ts ->
  represents lo (h ++ [OList vs]) (VRef (length h)) (JArr ts) = true.
Proof.
  intros Hlo F. apply represents_arr. exists (length h), vs.
  split_and!; [done | done | by apply list_lookup_middle |].
  eapply Forall2_impl; [done|]. simpl. intros a b Hab. split.
  - apply below_bound. by eapply represents_bound.
  - by apply represents_app.
Qed.

Lemma represents_alloc_dict lo h es kvs :
  lo <= length h ->
  Forall2 (fun (e : string * pyval) (kv : string * json) =>
             e.1 = kv.1 /\ represents lo h e.2 kv.2 = true) es kvs ->
  represents lo (h ++ [ODict es]) (VRef (length h)) (JObj kvs) = true.
Proof.
  intros Hlo F. apply represents_obj. exists (length h), es.
  split_and!; [done | done | by apply list_lookup_middle |].
  eapply Forall2_impl; [done|]. simpl. intros a b [? Hab]. split_and!; [done | |].
  - apply below_bound. by eapply represents_bound.
  - by apply represents_app.
Qed.

Lemma build_spec t : builds t.
Proof.
  induction t as [| | | |ts IH|kvs IH] using json_induction; intros h;
    try (eexists _, []; rewrite app_nil_r; split; [done|];
         simpl; by rewrite ?bool_decide_eq_true_2).
  - destruct (thread_build_spec ts IH h) as (vs & ext & E & F).
    exists (VRef (length (h ++ ext))), (ext ++ [OList vs]). split.
    + simpl. rewrite E. unfold alloc. by rewrite app_assoc.
    + rewrite app_assoc. apply represents_alloc_list; [|done].
      rewrite length_app. lia.
  - destruct (thread_build_entry_spec kvs IH h) as (es & ext & E & F).
    exists (VRef (length (h ++ ext))), (ext ++ [ODict es]). split.
    + simpl. rewrite E. unfold alloc. by rewrite app_assoc.
    + rewrite app_assoc. apply represents_alloc_dict; [|done].
      rewrite length_app. lia.
Qed.

Lemma max_list_with_le {A} (f : A -> nat) (l : list A) n :
  max_list_with f l <= n <-> Forall (fun x => f x <= n) l.
Proof.
  induction l as [|x l IH]; simpl.
  - split; [constructor | lia].
  - rewrite Forall_cons, <- IH. lia.
Qed.

Lemma nesting_arr ts d : nesting (JArr ts) <= S d <-> shallow d ts.
Proof.
  unfold shallow. rewrite <- max_list_with_le. simpl. lia.
Qed.

Lemma nesting_obj kvs d :
  nesting (JObj kvs) <= S d <->
  Forall (fun kv : string * json => nesting kv.2 <= d) kvs.
Proof.
  rewrite <- (max_list_with_le (fun kv : string * json => nesting kv.2)).
  simpl. lia.
Qed.

Lemma thread_deepcopy_spec ts :
  Forall copies ts ->
  forall lo h vs depth,
    Forall2 (fun v t => represents lo h v t = true) vs ts ->
    exists r ext,
      thread_opt (deepcopy depth) vs h = Some (r, h ++ ext) /\
      copied_all depth (length h) (h ++ ext) ts r.
Proof.
  unfold copied_all, shallow.
  induction 1 as [|t ts Ht _ IH]; intros lo h vs depth F.
  - apply Forall2_nil_inv_r in F as ->.
    exists (Ret []), []. rewrite app_nil_r. split; [done|]. left.
    split; [constructor|]. exists []. split; [done | constructor].
  - apply Forall2_cons_inv_r in F as (x & l & Hr & F & ->). simpl.
    destruct (Ht lo h x depth Hr)
      as (r1 & e1 & -> & [[Hn (v' & -> & Hv)] | [Hn ->]]).
    2: { exists (Raise RecursionError), e1. split; [done|]. right.
         split; [|done]. intros [? _]%Forall_cons. lia. }
    destruct (IH lo (h ++ e1) l depth)
      as (r2 & e2 & -> & [[Hs (vs' & -> & Hvs)] | [Hs ->]]).
    { eapply Forall2_impl; [done|]. simpl. intros a b ?.
      by apply represents_app. }
    + exists (Ret (v' :: vs')), (e1 ++ e2). rewrite app_assoc.
      split; [done|]. left. split; [by constructor|].
      eexists. split; [done|].
      constructor; [by apply represents_app|].
      eapply Forall2_impl; [done|]. simpl. intros a b Hab.
      eapply represents_lower; [|done]. rewrite length_app. lia.
    + exists (Raise RecursionError), (e1 ++ e2). rewrite app_assoc.
      split; [done|]. right. split; [|done]. by intros [_ ?]%Forall_cons.
Qed.

Lemma thread_copy_entry_spec kvs :
  Forall (fun kv : string * json => copies kv.2) kvs ->
  forall lo h es depth,
    Forall2 (fun (e : string * pyval) (kv : string * json) =>
               e.1 = kv.1 /\ represents lo h e.2 kv.2 = true) es kvs ->
    exists r ext,
      thread_opt (copy_entry (deepcopy depth)) es h = Some (r, h ++ ext) /\
      ((Forall (fun kv : string * json => nesting kv.2 <= depth) kvs /\
        exists es',
          r = Ret es' /\
          Forall2 (fun (e : string * pyval) (kv : string * json) =>
                     e.1 = kv.1 /\
                     represents (length h) (h ++ ext) e.2 kv.2 = true)
                  es' kvs) \/
       (~ Forall (fun kv : string * json => nesting kv.2 <= depth) kvs /\
        r = Raise RecursionError)).
Proof.
  induction 1 as [|[k t] kvs Ht _ IH]; intros lo h es depth F.
  - apply Forall2_nil_inv_r in F as ->.
    exists (Ret []), []. rewrite app_nil_r. split; [done|]. left.
    split; [constructor|]. exists []. split; [done | constructor].
  - apply Forall2_cons_inv_r in F as (x & l & (Hk & Hr) & F & ->).
    simpl in *. unfold copy_entry at 1.
    destruct (Ht lo h x.2 depth Hr)
      as (r1 & e1 & -> & [[Hn (v' & -> & Hv)] | [Hn ->]]).
    2: { exists (Raise RecursionError), e1. split; [done|]. right.
         split; [|done]. intros [? _]%Forall_cons. simpl in *. lia. }
    destruct (IH lo (h ++ e1) l depth)
      as (r2 & e2 & -> & [[Hs (es' & -> & Hes)] | [Hs ->]]).
    { eapply Forall2_impl; [done|]. simpl. intros a b (? & ?).
      split; [done | by apply represents_app]. }
    + exists (Ret ((x.1, v') :: es')), (e1 ++ e2). rewrite app_assoc.
      split; [done|]. left. split; [by constructor|].
      eexists. split; [done|].
      constructor; [split; [done | by apply represents_app]|].
      eapply Forall2_impl; [done|]. simpl. intros a b [? Hab]. split; [done|].
      eapply represents_lower; [|done]. rewrite length_app. lia.
    + exists (Raise RecursionError), (e1 ++ e2). rewrite app_assoc.
      split; [done|]. right. split; [|done]. by intros [_ ?]%Forall_cons.
Qed.

Lemma deepcopy_spec t : copies t.
Proof.
  induction t as [| | | |ts IH|kvs IH] using json_induction;
    intros lo h v depth H.
  all: try (destruct v; try done; destruct depth; eexists _, [];
            rewrite app_nil_r; (split; [reflexivity|]);
            [right; split; [simpl; lia | done]
            |left; split; [simpl; lia|]; eexists; split; done]).
  - apply represents_arr in H as (l & vs & -> & _ & Hl & F).
    destruct depth as [|d].
    { exists (Raise RecursionError), []. rewrite app_nil_r. split; [done|].
      right. split; [simpl; lia | done]. }
    destruct (thread_deepcopy_spec ts IH lo h vs d)
      as (r & ext & E & [[Hs (vs' & -> & F')] | [Hs ->]]).
    { eapply Forall2_impl; [done|]. simpl. by intros a b [_ ?]. }
    + exists (Ret (VRef (length (h ++ ext)))), (ext ++ [OList vs']). split.
      { simpl. rewrite Hl, E. unfold alloc. by rewrite app_assoc. }
      left. split; [by apply nesting_arr|]. eexists. split; [done|].
      rewrite app_assoc. apply represents_alloc_list; [|done].
      rewrite length_app. lia.
    + exists (Raise RecursionError), ext. split.
      { simpl. by rewrite Hl, E. }
      right. split; [|done].
      destruct (decide (nesting (JArr ts) <= S d)) as [Hle|]; [|lia].
      by apply nesting_arr in Hle.
  - apply represents_obj in H as (l & es & -> & _ & Hl & F).
    destruct depth as [|d].
    { exists (Raise RecursionError), []. rewrite app_nil_r. split; [done|].
      right. split; [simpl; lia | done]. }
    destruct (thread_copy_entry_spec kvs IH lo h es d)
      as (r & ext & E & [[Hs (es' & -> & F')] | [Hs ->]]).
    { eapply Forall2_impl; [done|]. simpl. by intros a b (? & _ & ?). }
    + exists (Ret (VRef (length (h ++ ext)))), (ext ++ [ODict es']). split.
      { simpl. rewrite Hl, E. unfold alloc. by rewrite app_assoc. }
      left. split; [by apply nesting_obj|]. eexists. split; [done|].
      rewrite app_assoc. apply represents_alloc_dict; [|done].
      rewrite length_app. lia.
    + exists (Raise RecursionError), ext. split.
      { simpl. by rewrite Hl, E. }
      right. split; [|done].
      destruct (decide (nesting (JObj kvs) <= S d)) as [Hle|]; [|lia].
      by apply nesting_obj in Hle.
Qed.

(** ** The heap operations against their readings on values *)

Lemma bind_ret {A B} (m : M A) (k : A -> M B) st a st1 :
  m st = Some (Ret a, st1) -> bind m k st = k a st1.
Proof. unfold bind. by intros ->. Qed.

Lemma bind_raise {A B} (m : M A) (k : A -> M B) st e st1 :
  m st = Some (Raise e, st1) -> bind m k st = Some (Raise e, st1).
Proof. unfold bind. by intros ->. Qed.

Lemma getitem_spec lo st v t i :
  represents lo (objects st) v t = true ->
  match json_getitem t i with
  | Ret t' =>
      exists v', getitem v i st = Some (Ret v', st) /\
                 represents lo (objects st) v' t' = true
  | Raise e => getitem v i st = Some (Raise e, st)
  end.
Proof.
  intros H. destruct t as [| | |s|ts|kvs].
  - by destruct v.
  - by destruct v.
  - by destruct v.
  - destruct v; try done. apply bool_decide_eq_true in H as ->. simpl.
    destruct (chars s0 !! i); [|done].
    eexists. split; [done|]. simpl. by rewrite bool_decide_eq_true_2.
  - apply represents_arr in H as (l & vs & -> & ? & Hl & F).
    simpl json_getitem. unfold getitem, bind, deref. rewrite Hl.
    destruct (ts !! i) as [t'|] eqn:E.
    + destruct (Forall2_lookup_r _ _ _ _ _ F E) as (x & Hx & _ & Hr).
      exists x. by rewrite Hx.
    + assert (vs !! i = None) as ->; [|done].
      apply lookup_ge_None. apply lookup_ge_None in E.
      by rewrite (Forall2_length _ _ _ F).
  - apply represents_obj in H as (l & es & -> & ? & Hl & F).
    simpl json_getitem. unfold getitem, bind, deref. by rewrite Hl.
Qed.

Lemma iterate_spec lo st v t :
  represents lo (objects st) v t = true ->
  match json_iter t with
  | Ret ts =>
      exists vs, iterate v st = Some (Ret vs, st) /\
                 Forall2 (fun v t => represents lo (objects st) v t = true) vs ts
  | Raise e => iterate v st = Some (Raise e, st)
  end.
Proof.
  intros H. destruct t as [| | |s|ts|kvs].
  - by destruct v.
  - by destruct v.
  - by destruct v.
  - destruct v; try done. apply bool_decide_eq_true in H as ->. simpl.
    eexists. split; [done|]. apply Forall2_fmap, Forall_Forall2_diag, Forall_true.
    intros c. simpl. by rewrite bool_decide_eq_true_2.
  - apply represents_arr in H as (l & vs & -> & ? & Hl & F).
    simpl json_iter. unfold iterate, bind, deref. rewrite Hl.
    exists vs. split; [done|]. eapply Forall2_impl; [done|]. by intros ?? [? ?].
  - apply represents_obj in H as (l & es & -> & ? & Hl & F).
    simpl json_iter. unfold iterate, bind, deref. rewrite Hl.
    eexists. split; [done|]. apply Forall2_fmap.
    eapply Forall2_impl; [done|]. simpl. intros ?? (-> & _).
    by rewrite bool_decide_eq_true_2.
Qed.

Lemma assoc_represents {R : pyval -> json -> Prop} k
    (es : list (string * pyval)) (kvs : list (string * json)) :
  Forall2 (fun e kv => e.1 = kv.1 /\ R e.2 kv.2) es kvs ->
  match assoc k es, assoc k kvs with
  | Some v, Some t => R v t
  | None, None => True
  | _, _ => False
  end.
Proof.
  induction 1 as [|e kv es kvs [Hk Hr] _ IH]; simpl; [done|].
  rewrite Hk. by case_decide.
Qed.

Lemma load_spec t st :
  exists v ext,
    load t st = Some (Ret v, set_objects (objects st ++ ext) st) /\
    represents (length (objects st)) (objects st ++ ext) v t = true.
Proof.
  destruct (build_spec t (objects st)) as (v & ext & E & H).
  exists v, ext. unfold load. by rewrite E.
Qed.

Lemma get_or_spec lo st v t k :
  represents lo (objects st) v t = true ->
  match t with
  | JObj kvs =>
      exists x, get_or v k (VStr "") st = Some (Ret x, st) /\
        represents lo (objects st) x
          (match assoc k kvs with Some t' => t' | None => JStr "" end) = true
  | _ => get_or v k (VStr "") st = Some (Raise AttributeError, st)
  end.
Proof.
  intros H. destruct t as [| | | |ts|kvs]; try (by destruct v).
  - apply represents_arr in H as (l & vs & -> & ? & Hl & F).
    unfold get_or, bind, deref. by rewrite Hl.
  - apply represents_obj in H as (l & es & -> & ? & Hl & F).
    unfold get_or, bind, deref. rewrite Hl.
    eexists. split; [done|].
    pose proof (assoc_represents
      (R := fun v t => below l v = true /\ represents lo (objects st) v t = true)
      k es kvs F) as Ha.
    destruct (assoc k es), (assoc k kvs); try done. by destruct Ha.
Qed.

Section refinement.
Variable net : nat -> request -> reply.

Lemma fetch_summary_spec st title :
  exists sv ext,
    fetch_summary net title st =
      Some (Ret sv, {| objects := objects st ++ ext; cache := cache st;
                       log := log st ++ [SummaryGet (title_text title)] |}) /\
    represents (length (objects st)) (objects st ++ ext) sv
      (summary_of (net (length (log st)) (SummaryGet (title_text title)))) = true.
Proof.
  unfold fetch_summary, try_except, bind, requests_get.
  destruct (net _ _) as [|s b] eqn:E; simpl.
  { exists (VStr ""), []. by rewrite app_nil_r. }
  case_bool_decide as Hs; simpl.
  2: { exists (VStr ""), []. rewrite app_nil_r. split; [done|].
       by destruct b as [[]|]. }
  destruct b as [d|]; simpl.
  2: { exists (VStr ""), []. by rewrite app_nil_r. }
  unfold json_of. simpl.
  set (st1 := add_log (SummaryGet (title_text title)) st).
  destruct (load_spec d st1) as (v & ext & -> & Hv).
  pose proof (get_or_spec _ (set_objects (objects st1 ++ ext) st1)
                v d "extract" Hv) as Hg.
  cbn beta iota.
  destruct d; try (rewrite Hg; exists (VStr ""), ext; done).
  destruct Hg as (x & -> & Hx). by exists x, ext.
Qed.

Lemma make_record_spec lo st p tt ut :
  lo <= length (objects st) ->
  represents lo (objects st) p.1 tt = true ->
  represents lo (objects st) p.2 ut = true ->
  exists r ext,
    make_record net p st =
      Some (Ret r, {| objects := objects st ++ ext; cache := cache st;
                      log := log st ++ [SummaryGet (json_text tt)] |}) /\
    represents lo (objects st ++ ext) r
      (record tt ut
         (summary_of (net (length (log st)) (SummaryGet (json_text tt))))) = true.
Proof.
  intros Hlo Ht Hu. unfold make_record.
  destruct (fetch_summary_spec st p.1) as (sv & e1 & E & Hs).
  rewrite (represents_text _ _ _ _ Ht) in *.
  rewrite (bind_ret _ _ _ _ _ E).
  eexists _, (e1 ++ [_]). split.
  { unfold new, alloc. simpl. by rewrite app_assoc. }
  rewrite app_assoc. apply represents_alloc_dict; [rewrite length_app; lia|].
  repeat constructor; simpl; try by apply represents_app.
  eapply represents_lower; [|done]. lia.
Qed.

Lemma for_each_make_record_spec lo pts :
  forall pvs st,
    lo <= length (objects st) ->
    Forall2 (fun (pv : pyval * pyval) (pt : json * json) =>
               represents lo (objects st) pv.1 pt.1 = true /\
               represents lo (objects st) pv.2 pt.2 = true) pvs pts ->
    exists rs ext,
      for_each (make_record net) pvs st =
        Some (Ret rs,
              {| objects := objects st ++ ext; cache := cache st;
                 log := log st ++
                   ((fun p : json * json => SummaryGet (json_text p.1)) <$> pts) |}) /\
      Forall2 (fun v t => represents lo (objects st ++ ext) v t = true)
              rs (records net (length (log st)) pts).
Proof.
  induction pts as [|pt pts IH]; intros pvs st Hlo F.
  - apply Forall2_nil_inv_r in F as ->. exists [], []. simpl.
    rewrite !app_nil_r. split; [by destruct st | constructor].
  - apply Forall2_cons_inv_r in F as (pv & pvs' & [Ht Hu] & F & ->).
    simpl for_each.
    destruct (make_record_spec lo st pv _ _ Hlo Ht Hu) as (r & e1 & E & Hr).
    rewrite (bind_ret _ _ _ _ _ E).
    edestruct (IH pvs') as (rs & e2 & E2 & Hrs); [| |rewrite (bind_ret _ _ _ _ _ E2)].
    { simpl. rewrite length_app. lia. }
    { simpl. eapply Forall2_impl; [done|]. simpl. intros ?? [? ?].
      split; by apply represents_app. }
    simpl in *. exists (r :: rs), (e1 ++ e2). unfold ret. split.
    + by rewrite <- !app_assoc.
    + rewrite app_assoc. constructor; [by apply represents_app|].
      rewrite length_app, Nat.add_1_r in Hrs. done.
Qed.

Lemma pairs_spec lo st data d :
  represents lo (objects st) data d = true ->
  match json_pairs d with
  | Ret pts =>
      exists pvs,
        Forall2 (fun (pv : pyval * pyval) (pt : json * json) =>
                   represents lo (objects st) pv.1 pt.1 = true /\
                   represents lo (objects st) pv.2 pt.2 = true) pvs pts /\
        forall B (k : list (pyval * pyval) -> M B),
          (let* titles := getitem data 1 in
           let* urls := getitem data 3 in
           let* ts := iterate titles in
           let* us := iterate urls in
           k (zip ts us)) st = k pvs st
  | Raise e =>
      forall B (k : list (pyval * pyval) -> M B),
        (let* titles := getitem data 1 in
         let* urls := getitem data 3 in
         let* ts := iterate titles in
         let* us := iterate urls in
         k (zip ts us)) st = Some (Raise e, st)
  end.
Proof.
  intros Hd. unfold json_pairs.
  pose proof (getitem_spec lo st data d 1 Hd) as H1.
  destruct (json_getitem d 1) as [titles|e];
    [destruct H1 as (tv & E1 & Ht) | intros; by rewrite (bind_raise _ _ _ _ _ H1)].
  pose proof (getitem_spec lo st data d 3 Hd) as H3.
  destruct (json_getitem d 3) as [urls|e];
    [destruct H3 as (uv & E3 & Hu)
    | intros; by rewrite (bind_ret _ _ _ _ _ E1), (bind_raise _ _ _ _ _ H3)].
  pose proof (iterate_spec lo st tv titles Ht) as Hti.
  destruct (json_iter titles) as [ts|e];
    [destruct Hti as (tvs & Eti & Hts)
    | intros; by rewrite (bind_ret _ _ _ _ _ E1), (bind_ret _ _ _ _ _ E3),
                (bind_raise _ _ _ _ _ Hti)].
  pose proof (iterate_spec lo st uv urls Hu) as Hui.
  destruct (json_iter urls) as [us|e];
    [destruct Hui as (uvs & Eui & Hus)
    | intros; by rewrite (bind_ret _ _ _ _ _ E1), (bind_ret _ _ _ _ _ E3),
                (bind_ret _ _ _ _ _ Eti), (bind_raise _ _ _ _ _ Hui)].
  exists (zip tvs uvs). split.
  - clear -Hts Hus. revert uvs us Hus.
    induction Hts; intros uvs us Hus; simpl; [constructor|].
    destruct Hus; simpl; constructor; auto.
  - intros. by rewrite (bind_ret _ _ _ _ _ E1), (bind_ret _ _ _ _ _ E3),
      (bind_ret _ _ _ _ _ Eti), (bind_ret _ _ _ _ _ Eui).
Qed.

Lemma fetch_search_spec q n st :
  match search_data (net (length (log st)) (SearchGet q n)) with
  | Some d =>
      exists data ext,
        fetch_search net q n st =
          Some (Ret (Some data),
                {| objects := objects st ++ ext; cache := cache st;
                   log := log st ++ [SearchGet q n] |}) /\
        represents (length (objects st)) (objects st ++ ext) data d = true
  | None =>
      fetch_search net q n st = Some (Ret None, add_log (SearchGet q n) st)
  end.
Proof.
  unfold fetch_search, try_except, bind, requests_get, search_data.
  destruct (net _ _) as [|s b]; [done|]. simpl.
  unfold raise_for_status. simpl. case_bool_decide; [done|]. simpl.
  destruct b as [d|]; [|done]. unfold json_of. simpl.
  set (st1 := add_log (SearchGet q n) st).
  destruct (load_spec d st1) as (v & ext & -> & Hv).
  by exists v, ext.
Qed.

(** The function on objects computes what [search_value] computes on
    documents, and issues the requests [search_requests] lists. *)
Lemma search_uncached_refines q n st :
  exists r ext,
    search_uncached net q n st =
      Some (r, {| objects := objects st ++ ext; cache := cache st;
                  log := log st ++ search_requests net (length (log st)) q n |}) /\
    match search_value net (length (log st)) q n with
    | Ret ts =>
        exists vs, r = Ret vs /\
          Forall2 (fun v t =>
                     represents (length (objects st)) (objects st ++ ext) v t = true)
                  vs ts
    | Raise e => r = Raise e
    end.
Proof.
  unfold search_uncached, search_value, search_requests.
  case_bool_decide as Hq.
  { exists (Ret []), []. rewrite !app_nil_r. split; [by destruct st|].
    exists []. split; [done | constructor]. }
  pose proof (fetch_search_spec q n st) as Hf.
  destruct (search_data _) as [d|].
  2: { exists (Ret []), []. rewrite (bind_ret _ _ _ _ _ Hf), app_nil_r.
       split; [done|]. exists []. split; [done | constructor]. }
  destruct Hf as (data & e1 & Hf & Hd). rewrite (bind_ret _ _ _ _ _ Hf).
  set (st1 := {| objects := objects st ++ e1; cache := cache st;
                 log := log st ++ [SearchGet q n] |}).
  pose proof (pairs_spec (length (objects st)) st1 data d Hd) as Hp.
  destruct (json_pairs d) as [pts|e].
  2: { exists (Raise e), e1. rewrite Hp. split; [|done].
       done. }
  destruct Hp as (pvs & F & ->).
  destruct (for_each_make_record_spec (length (objects st)) pts pvs st1)
    as (rs & e2 & -> & Hrs); [simpl; rewrite length_app; lia | done |].
  exists (Ret rs), (e1 ++ e2). simpl in *. split.
  - by rewrite <- !app_assoc.
  - exists rs. split; [done|].
    by rewrite length_app, Nat.add_1_r, <- app_assoc in Hrs.
Qed.
End refinement.

(** ** The LRU list *)

Lemma assoc_app {K V} `{EqDecision K} (k : K) (l1 l2 : list (K * V)) :
  assoc k (l1 ++ l2) =
  match assoc k l1 with
  | Some v => Some v
  | None => assoc k l2
  end.
Proof. induction l1 as [|e l1 IH]; simpl; [done|]. by case_decide. Qed.

Lemma assoc_None {K V} `{EqDecision K} (k : K) (l : list (K * V)) :
  assoc k l = None <-> k ∉ l.*1.
Proof.
  induction l as [|e l IH]; simpl.
  - split; [intros _; apply not_elem_of_nil | done].
  - rewrite not_elem_of_cons, <- IH. case_decide as Hk.
    + split; [done | by intros [? _]].
    + split; [by intros ? | by intros [_ ?]].
Qed.

Lemma assoc_Some_elem {K V} `{EqDecision K} (k : K) (l : list (K * V)) v :
  assoc k l = Some v -> (k, v) ∈ l.
Proof.
  induction l as [|[k' v'] l IH]; simpl; [done|].
  case_decide; intros; simplify_eq; [left | right; auto].
Qed.

Lemma drop_key_assoc k c : assoc k (drop_key k c) = None.
Proof.
  apply assoc_None. intros (e & -> & He)%list_elem_of_fmap.
  by apply list_elem_of_filter in He as [? _].
Qed.

Lemma drop_key_NoDup k c : NoDup (c.*1) -> NoDup ((drop_key k c).*1).
Proof.
  induction c as [|e c IH]; [done|]. rewrite fmap_cons.
  intros [Hn Hd]%NoDup_cons. unfold drop_key. rewrite filter_cons.
  destruct (decide _); [|by apply IH].
  rewrite fmap_cons. apply NoDup_cons. split; [|by apply IH].
  intros (e' & He' & Hin)%list_elem_of_fmap. apply Hn.
  apply list_elem_of_fmap. exists e'. split; [done|].
  by apply list_elem_of_filter in Hin as [_ ?].
Qed.

Lemma drop_key_length k c v :
  assoc k c = Some v -> S (length (drop_key k c)) <= length c.
Proof.
  intros H%assoc_Some_elem. unfold drop_key.
  pose proof (length_filter_lt (fun e : key * list pyval => e.1 <> k) c (k, v) H) as Hl.
  simpl in Hl. apply Hl. by intros ?.
Qed.

Lemma lru_touch_assoc k v c : assoc k (lru_touch k v c) = Some v.
Proof.
  unfold lru_touch. rewrite assoc_app, drop_key_assoc. simpl. by case_decide.
Qed.

Lemma lru_store_assoc k v c :
  assoc k c = None -> assoc k (lru_store k v c) = Some v.
Proof.
  intros E. unfold lru_store. rewrite E.
  assert (assoc k (tail c) = None) as Et.
  { destruct c as [|e c]; [done|]. simpl in *. by case_decide. }
  case_bool_decide; rewrite assoc_app, ?E, ?Et; simpl; by case_decide.
Qed.

(** ** The invariant is kept *)

Lemma entry_ok_app h ext e : entry_ok h e -> entry_ok (h ++ ext) e.
Proof.
  intros [He (ts & F)]. split; [done|]. exists ts.
  eapply Forall2_impl; [done|]. intros ???. by apply represents_app.
Qed.

Lemma cache_inv_app h ext c : cache_inv h c -> cache_inv (h ++ ext) c.
Proof.
  intros (? & ? & F). split_and!; [done | done |].
  eapply Forall_impl; [done|]. intros ??. by apply entry_ok_app.
Qed.

Lemma cache_inv_touch h c k vs :
  cache_inv h c -> assoc k c = Some vs -> cache_inv h (lru_touch k vs c).
Proof.
  intros (Hd & Hl & F) E. unfold lru_touch. split_and!.
  - rewrite fmap_app. apply NoDup_app. split_and!.
    + by apply drop_key_NoDup.
    + intros x Hx ->%list_elem_of_singleton.
      by apply (assoc_None k (drop_key k c)); [apply drop_key_assoc|].
    + apply NoDup_singleton.
  - rewrite length_app. simpl. pose proof (drop_key_length k c vs E). lia.
  - rewrite Forall_forall in F. apply Forall_app. split.
    + apply Forall_forall. intros e [_ He]%list_elem_of_filter. auto.
    + apply Forall_singleton. apply F. by apply assoc_Some_elem.
Qed.

Lemma cache_inv_store h c k vs :
  cache_inv h c -> entry_ok h (k, vs) -> cache_inv h (lru_store k vs c).
Proof.
  intros (Hd & Hl & F) He. unfold lru_store.
  destruct (assoc k c) eqn:E; [done|]. apply assoc_None in E.
  case_bool_decide as Hfull.
  - destruct c as [|e c]; [unfold maxsize in *; simpl in *; lia|]. simpl in *.
    apply NoDup_cons in Hd as [_ Hd].
    apply not_elem_of_cons in E as [_ E]. apply Forall_cons in F as [_ F].
    split_and!.
    + rewrite fmap_app. apply NoDup_app. split_and!; [done | | apply NoDup_singleton].
      by intros x Hx ->%list_elem_of_singleton.
    + rewrite length_app. simpl. lia.
    + apply Forall_app. split; [done | by apply Forall_singleton].
  - split_and!.
    + rewrite fmap_app. apply NoDup_app. split_and!; [done | | apply NoDup_singleton].
      by intros x Hx ->%list_elem_of_singleton.
    + rewrite length_app. simpl. lia.
    + apply Forall_app. split; [done | by apply Forall_singleton].
Qed.

(** ** One call *)

#[local] Arguments represents : simpl never.

Lemma json_pairs_raise d e :
  json_pairs d = Raise e -> e = IndexError \/ e = KeyError \/ e = TypeError.
Proof.
  unfold json_pairs, json_getitem, json_iter.
  intros H. repeat case_match; simplify_eq; auto.
Qed.

Lemma search_value_raise net tick q n e :
  search_value net tick q n = Raise e ->
  e = IndexError \/ e = KeyError \/ e = TypeError.
Proof.
  unfold search_value. intros H. repeat case_match; simplify_eq.
  by eapply json_pairs_raise.
Qed.

Lemma copied_ret lim lo h ts v :
  copied lim lo h ts (Ret v) ->
  shallow lim ts /\ represents lo h v (JArr ts) = true.
Proof. intros [[? (v' & ? & ?)] | [_ ?]]; by simplify_eq. Qed.

Lemma copied_raise lim lo h ts e :
  copied lim lo h ts (Raise e) -> e = RecursionError /\ ~ shallow lim ts.
Proof. intros [[? (v' & ? & ?)] | [? ?]]; by simplify_eq. Qed.

Lemma copied_shallow lim lo h ts r :
  shallow lim ts -> copied lim lo h ts r ->
  exists v, r = Ret v /\ represents lo h v (JArr ts) = true.
Proof. intros Hs [[_ ?] | [? _]]; done. Qed.

Lemma copied_deep lim lo h ts r :
  ~ shallow lim ts -> copied lim lo h ts r -> r = Raise RecursionError.
Proof. by intros Hs [[? _] | [_ ?]]. Qed.

Lemma copied_lower lim lo lo' h ts r :
  lo' <= lo -> copied lim lo h ts r -> copied lim lo' h ts r.
Proof.
  intros Hlo [[? (v & ? & ?)] | ?]; [left | by right].
  split; [done|]. exists v. split; [done|]. by eapply represents_lower.
Qed.

Lemma copied_uses_key lim lo h ts r : copied lim lo h ts r -> uses_key r = true.
Proof. by intros [[_ (v & -> & _)] | [_ ->]]. Qed.

Lemma shallow_nil lim : shallow lim [].
Proof. constructor. Qed.

(** [shallow] by computation. *)
Lemma shallow_check lim ts :
  forallb (fun t => Nat.leb (nesting t) lim) ts = true -> shallow lim ts.
Proof.
  intros H. apply Forall_forall. intros t Ht.
  rewrite forallb_forall in H. apply Nat.leb_le, H. by apply list_elem_of_In.
Qed.

Section calls.
Variable lim : nat.
Variable net : nat -> request -> reply.

Lemma for_each_deepcopy_spec ts :
  forall vs st lo,
    Forall2 (fun v t => represents lo (objects st) v t = true) vs ts ->
    exists r ext,
      for_each (copy_deepcopy lim) vs st =
        Some (r, set_objects (objects st ++ ext) st) /\
      copied_all lim (length (objects st)) (objects st ++ ext) ts r.
Proof.
  unfold copied_all, shallow.
  induction ts as [|t ts IH]; intros vs st lo F.
  - apply Forall2_nil_inv_r in F as ->. exists (Ret []), []. simpl.
    rewrite app_nil_r. split; [by destruct st|]. left.
    split; [constructor|]. exists []. split; [done | constructor].
  - apply Forall2_cons_inv_r in F as (v & vs' & Hv & F & ->). simpl for_each.
    destruct (deepcopy_spec t lo (objects st) v lim Hv)
      as (r1 & e1 & E & [[Hn (c & -> & Hc)] | [Hn ->]]).
    2: { assert (copy_deepcopy lim v st =
                 Some (Raise RecursionError, set_objects (objects st ++ e1) st))
           as E1 by (unfold copy_deepcopy; by rewrite E).
         rewrite (bind_raise _ _ _ _ _ E1).
         exists (Raise RecursionError), e1. split; [done|]. right.
         split; [|done]. intros [? _]%Forall_cons. lia. }
    assert (copy_deepcopy lim v st =
            Some (Ret c, set_objects (objects st ++ e1) st))
      as E1 by (unfold copy_deepcopy; by rewrite E).
    rewrite (bind_ret _ _ _ _ _ E1).
    edestruct (IH vs' (set_objects (objects st ++ e1) st) lo)
      as (r2 & e2 & E2 & [[Hs (cs & -> & Hcs)] | [Hs ->]]).
    { simpl. eapply Forall2_impl; [done|]. intros ???. by apply represents_app. }
    + rewrite (bind_ret _ _ _ _ _ E2). simpl in *.
      exists (Ret (c :: cs)), (e1 ++ e2). unfold ret, set_objects. simpl.
      split; [by rewrite app_assoc|]. left. split; [by constructor|].
      eexists. split; [done|].
      rewrite app_assoc. constructor; [by apply represents_app|].
      eapply Forall2_impl; [done|]. simpl. intros a b Hab.
      eapply represents_lower; [|done]. rewrite length_app. lia.
    + rewrite (bind_raise _ _ _ _ _ E2). simpl in *.
      exists (Raise RecursionError), (e1 ++ e2). unfold set_objects. simpl.
      split; [by rewrite app_assoc|]. right. split; [|done].
      by intros [_ ?]%Forall_cons.
Qed.

(** Line 72, once the decorated function has returned the tuple [vs]: the
    call returns the list of the copies, or raises [RecursionError] when a
    record goes deeper than [lim]; the state is that of the decorated
    function, with more objects. *)
Lemma copy_out q n st vs st1 ts lo :
  _open_book_search_cached net q n st = Some (Ret vs, st1) ->
  Forall2 (fun v t => represents lo (objects st1) v t = true) vs ts ->
  exists r ext,
    open_book_search lim net q n st =
      Some (r, set_objects (objects st1 ++ ext) st1) /\
    copied lim (length (objects st1)) (objects st1 ++ ext) ts r.
Proof.
  intros E F. unfold open_book_search. rewrite (bind_ret _ _ _ _ _ E).
  destruct (for_each_deepcopy_spec ts vs st1 lo F)
    as (r1 & e1 & E1 & [[Hs (cs & -> & Hcs)] | [Hs ->]]).
  - rewrite (bind_ret _ _ _ _ _ E1).
    eexists (Ret _), (e1 ++ [_]). split.
    { unfold new, alloc, set_objects. simpl. by rewrite app_assoc. }
    left. split; [done|]. eexists. split; [done|].
    rewrite app_assoc. apply represents_alloc_list; [|done].
    rewrite length_app. lia.
  - rewrite (bind_raise _ _ _ _ _ E1).
    exists (Raise RecursionError), e1. split; [done | by right].
Qed.

Lemma hit_call q n st vs ts :
  assoc (q, n) (cache st) = Some vs ->
  Forall2 (fun v t => represents 0 (objects st) v t = true) vs ts ->
  exists r ext,
    open_book_search lim net q n st =
      Some (r, {| objects := objects st ++ ext;
                  cache := lru_touch (q, n) vs (cache st);
                  log := log st |}) /\
    copied lim (length (objects st)) (objects st ++ ext) ts r.
Proof.
  intros E F.
  assert (_open_book_search_cached net q n st =
          Some (Ret vs, set_cache (lru_touch (q, n) vs (cache st)) st)) as Ec.
  { unfold _open_book_search_cached, lru_cache. by rewrite E. }
  destruct (copy_out q n st vs _ ts 0 Ec F) as (r & ext & -> & Hr).
  by exists r, ext.
Qed.

Lemma miss_call q n st :
  assoc (q, n) (cache st) = None ->
  match search_value net (length (log st)) q n with
  | Ret ts =>
      exists r vs e1 e2,
        open_book_search lim net q n st =
          Some (r,
                {| objects := (objects st ++ e1) ++ e2;
                   cache := lru_store (q, n) vs (cache st);
                   log := log st ++ search_requests net (length (log st)) q n |}) /\
        Forall2 (fun v t =>
                   represents (length (objects st)) (objects st ++ e1) v t = true)
                vs ts /\
        copied lim (length (objects st ++ e1)) ((objects st ++ e1) ++ e2) ts r
  | Raise e =>
      exists e1,
        open_book_search lim net q n st =
          Some (Raise e,
                {| objects := objects st ++ e1; cache := cache st;
                   log := log st ++ search_requests net (length (log st)) q n |})
  end.
Proof.
  intros E. destruct (search_uncached_refines net q n st) as (r & e1 & Eu & H).
  destruct (search_value _ _ _ _) as [ts|e].
  - destruct H as (vs & -> & F).
    set (st1 := {| objects := objects st ++ e1; cache := cache st;
                   log := log st ++ search_requests net (length (log st)) q n |})
      in *.
    assert (_open_book_search_cached net q n st =
            Some (Ret vs, set_cache (lru_store (q, n) vs (cache st1)) st1)) as Ec.
    { unfold _open_book_search_cached, lru_cache. by rewrite E, Eu. }
    destruct (copy_out q n st vs _ ts _ Ec F) as (r & e2 & -> & Hr).
    by exists r, vs, e1, e2.
  - subst r. exists e1. unfold open_book_search.
    apply bind_raise. unfold _open_book_search_cached, lru_cache.
    by rewrite E, Eu.
Qed.

Lemma cached_entry_ok k vs st :
  cache_ok st -> assoc k (cache st) = Some vs -> entry_ok (objects st) (k, vs).
Proof.
  intros (_ & _ & F) E. rewrite Forall_forall in F.
  by apply F, assoc_Some_elem.
Qed.

Lemma stored_entry_ok q n tick lo h vs ts :
  search_value net tick q n = Ret ts ->
  Forall2 (fun v t => represents lo h v t = true) vs ts ->
  entry_ok h ((q, n), vs).
Proof.
  intros Hs F. split; simpl.
  - intros ->. unfold search_value in Hs. simpl in Hs. simplify_eq.
    by apply Forall2_nil_inv_r in F.
  - exists ts. eapply Forall2_impl; [done|]. simpl. intros ???.
    eapply represents_lower; [|done]. lia.
Qed.

(** A call that returns leaves its key in the cache; the stored tuple and
    the whole cache lie in a part [hc] of the heap, the returned list and
    everything under it above that part; no record goes deeper than
    [lim]. *)
Lemma call_ret q n st v st1 :
  cache_ok st ->
  open_book_search lim net q n st = Some (Ret v, st1) ->
  exists vs ts hc ext,
    objects st1 = hc ++ ext /\
    cache_inv hc (cache st1) /\
    assoc (q, n) (cache st1) = Some vs /\
    Forall2 (fun v t => represents 0 hc v t = true) vs ts /\
    represents (length hc) (hc ++ ext) v (JArr ts) = true /\
    shallow lim ts.
Proof.
  intros Hok E. destruct (assoc (q, n) (cache st)) as [vs|] eqn:Ea.
  - destruct (cached_entry_ok _ _ _ Hok Ea) as [_ (ts & F)]. simpl in F.
    destruct (hit_call q n st vs ts Ea F) as (r & ext & E' & Hr).
    rewrite E' in E. simplify_eq. apply copied_ret in Hr as [Hs Hv]. simpl.
    exists vs, ts, (objects st), ext.
    split_and!; [done | by apply cache_inv_touch | apply lru_touch_assoc
                | done | done | done].
  - pose proof (miss_call q n st Ea) as Hm.
    destruct (search_value _ _ _ _) as [ts|e] eqn:Es.
    2: { destruct Hm as (e1 & E'). rewrite E' in E. simplify_eq. }
    destruct Hm as (r & vs & e1 & e2 & E' & F & Hr).
    rewrite E' in E. simplify_eq. apply copied_ret in Hr as [Hs Hv]. simpl.
    exists vs, ts, (objects st ++ e1), e2.
    assert (Forall2 (fun v t => represents 0 (objects st ++ e1) v t = true) vs ts)
      as F0.
    { eapply Forall2_impl; [done|]. simpl. intros ???.
      eapply represents_lower; [|done]. lia. }
    split_and!; [done | | by apply lru_store_assoc | done | done | done].
    apply cache_inv_store; [by apply cache_inv_app|].
    by eapply stored_entry_ok.
Qed.

(** A call that raises [RecursionError] raised it at the copy: its key is
    in the cache, with a tuple of which some record goes deeper than
    [lim]; on a miss the requests were made. *)
Lemma call_too_deep q n st st1 :
  cache_ok st ->
  open_book_search lim net q n st = Some (Raise RecursionError, st1) ->
  exists vs ts,
    assoc (q, n) (cache st1) = Some vs /\
    Forall2 (fun v t => represents 0 (objects st1) v t = true) vs ts /\
    ~ shallow lim ts /\
    cache_ok st1 /\
    match assoc (q, n) (cache st) with
    | Some vs0 => vs0 = vs /\ log st1 = log st
    | None =>
        search_value net (length (log st)) q n = Ret ts /\
        log st1 = log st ++ search_requests net (length (log st)) q n
    end.
Proof.
  intros Hok E. destruct (assoc (q, n) (cache st)) as [vs|] eqn:Ea.
  - destruct (cached_entry_ok _ _ _ Hok Ea) as [_ (ts & F)]. simpl in F.
    destruct (hit_call q n st vs ts Ea F) as (r & ext & E' & Hr).
    rewrite E' in E. simplify_eq. apply copied_raise in Hr as [_ Hs]. simpl.
    exists vs, ts.
    split_and!; [apply lru_touch_assoc | | done | | done | done].
    + eapply Forall2_impl; [done|]. intros ???. by apply represents_app.
    + unfold cache_ok. simpl. by apply cache_inv_app, cache_inv_touch.
  - pose proof (miss_call q n st Ea) as Hm.
    destruct (search_value _ _ _ _) as [ts|e] eqn:Es.
    2: { destruct Hm as (e1 & E'). rewrite E' in E. simplify_eq.
         by destruct (search_value_raise _ _ _ _ _ Es) as [?|[?|?]]. }
    destruct Hm as (r & vs & e1 & e2 & E' & F & Hr).
    rewrite E' in E. simplify_eq. apply copied_raise in Hr as [_ Hs]. simpl.
    assert (Forall2 (fun v t => represents 0 (objects st ++ e1) v t = true) vs ts)
      as F0.
    { eapply Forall2_impl; [done|]. simpl. intros ???.
      eapply represents_lower; [|done]. lia. }
    exists vs, ts.
    split_and!; [by apply lru_store_assoc | | done | | done | done].
    + eapply Forall2_impl; [done|]. intros ???. by apply represents_app.
    + unfold cache_ok. simpl. apply cache_inv_app, cache_inv_store.
      * by apply cache_inv_app.
      * by eapply stored_entry_ok.
Qed.

(** From a state that satisfies the invariant every call returns or
    raises, and the invariant holds afterwards. *)
Lemma call_total q n st :
  cache_ok st ->
  exists r st', open_book_search lim net q n st = Some (r, st') /\ cache_ok st'.
Proof.
  intros Hok. destruct (assoc (q, n) (cache st)) as [vs|] eqn:Ea.
  - destruct (cached_entry_ok _ _ _ Hok Ea) as [_ (ts & F)]. simpl in F.
    destruct (hit_call q n st vs ts Ea F) as (r & ext & E' & Hr).
    eexists _, _. split; [exact E'|].
    unfold cache_ok. simpl. by apply cache_inv_app, cache_inv_touch.
  - pose proof (miss_call q n st Ea) as Hm.
    destruct (search_value _ _ _ _) as [ts|e] eqn:Es.
    + destruct Hm as (r & vs & e1 & e2 & E' & F & Hr).
      eexists _, _. split; [exact E'|].
      unfold cache_ok. simpl. apply cache_inv_app, cache_inv_store.
      * by apply cache_inv_app.
      * by eapply stored_entry_ok.
    + destruct Hm as (e1 & E'). eexists _, _. split; [exact E'|].
      unfold cache_ok. simpl. by apply cache_inv_app.
Qed.

Lemma run_calls_total calls :
  forall st, cache_ok st ->
    exists st', run_calls lim net calls st = Some st' /\ cache_ok st'.
Proof.
  induction calls as [|k calls IH]; intros st Hok; simpl; [by exists st|].
  destruct (call_total k.1 k.2 st Hok) as (r & st1 & -> & Hok1).
  by apply IH.
Qed.
End calls.

Lemma init_state_ok : cache_ok init_state.
Proof.
  split_and!; simpl; [apply NoDup_nil_2 | unfold maxsize; lia | constructor].
Qed.

(** ** What the holder of a value can reach *)

Lemma represents_reach lo h v t l :
  represents lo h v t = true -> reachable h v l -> lo <= l.
Proof.
  revert v. induction t as [| | | |ts IH|kvs IH] using json_induction;
    intros v H R; try (destruct v; try done; inversion R; fail).
  - apply represents_arr in H as (l0 & vs & -> & Hlo & Hl & F).
    inversion R as [|? o v' ? Ho Hin R']; subst; [done|].
    rewrite Hl in Ho. simplify_eq. simpl in Hin.
    apply list_elem_of_lookup_1 in Hin as [i Hi].
    destruct (Forall2_lookup_l _ _ _ _ _ F Hi) as (t' & Ht' & _ & Hr).
    eapply (Forall_lookup_1 _ _ _ _ IH Ht'); done.
  - apply represents_obj in H as (l0 & es & -> & Hlo & Hl & F).
    inversion R as [|? o v' ? Ho Hin R']; subst; [done|].
    rewrite Hl in Ho. simplify_eq. simpl in Hin.
    apply list_elem_of_fmap in Hin as (e & -> & Hin).
    apply list_elem_of_lookup_1 in Hin as [i Hi].
    destruct (Forall2_lookup_l _ _ _ _ _ F Hi) as (kv & Hkv & _ & _ & Hr).
    eapply (Forall_lookup_1 _ _ _ _ IH Hkv); done.
Qed.

Lemma agree_prefix (hc h' : heap) :
  length hc <= length h' ->
  (forall l, l < length hc -> h' !! l = hc !! l) ->
  exists rest, h' = hc ++ rest.
Proof.
  intros Hlen Hag. exists (drop (length hc) h').
  rewrite <- (take_drop (length hc) h') at 1. f_equal.
  apply list_eq. intros i. destruct (decide (i < length hc)).
  - rewrite lookup_take_lt by done. auto.
  - rewrite lookup_take_ge by lia. symmetry. apply lookup_ge_None. lia.
Qed.

(** ** Records of a well-formed answer *)

Lemma records_length net tick pairs :
  length (records net tick pairs) = length pairs.
Proof.
  revert tick. induction pairs as [|p pairs IH]; intros tick; simpl; [done|].
  by rewrite IH.
Qed.

Lemma records_lookup net tick pairs i p :
  pairs !! i = Some p ->
  records net tick pairs !! i =
    Some (record p.1 p.2
            (summary_of (net (tick + i) (SummaryGet (json_text p.1))))).
Proof.
  revert tick i. induction pairs as [|p' pairs IH]; intros tick i E; [done|].
  destruct i as [|i]; simpl in *.
  - simplify_eq. by rewrite Nat.add_0_r.
  - rewrite (IH (S tick) i E). by rewrite Nat.add_succ_r.
Qed.

Lemma search_value_answer net tick q n d titles urls :
  q <> "" ->
  search_data (net tick (SearchGet q n)) = Some d ->
  json_getitem d 1 = Ret (JArr titles) ->
  json_getitem d 3 = Ret (JArr urls) ->
  search_value net tick q n = Ret (records net (S tick) (zip titles urls)) /\
  search_requests net tick q n =
    SearchGet q n ::
      ((fun p : json * json => SummaryGet (json_text p.1)) <$> zip titles urls).
Proof.
  intros Hq Hd H1 H3. unfold search_value, search_requests, json_pairs.
  rewrite bool_decide_eq_false_2 by done. by rewrite Hd, H1, H3.
Qed.

(** A miss on a well-formed answer: what is returned, what is stored and
    what is asked. *)
Lemma answered_miss lim net q n st s x0 titles x2 urls rest :
  assoc (q, n) (cache st) = None ->
  q <> "" ->
  net (length (log st)) (SearchGet q n) =
    Response s (Some (JArr (x0 :: JArr titles :: x2 :: JArr urls :: rest))) ->
  ~ (400 <= s < 600)%Z ->
  exists r st' vs,
    open_book_search lim net q n st = Some (r, st') /\
    copied lim 0 (objects st')
      (records net (S (length (log st))) (zip titles urls)) r /\
    log st' =
      log st ++ SearchGet q n ::
        ((fun p : json * json => SummaryGet (json_text p.1)) <$> zip titles urls) /\
    cache st' = lru_store (q, n) vs (cache st) /\
    Forall2 (fun v t => represents 0 (objects st') v t = true) vs
      (records net (S (length (log st))) (zip titles urls)).
Proof.
  intros Ea Hq Hn Hs. pose proof (miss_call lim net q n st Ea) as Hm.
  destruct (search_value_answer net (length (log st)) q n
              (JArr (x0 :: JArr titles :: x2 :: JArr urls :: rest)) titles urls)
    as [Ev Er]; [done | | done | done |].
  { rewrite Hn. simpl. by rewrite bool_decide_eq_false_2. }
  rewrite Ev, Er in Hm. destruct Hm as (r & vs & e1 & e2 & E & F & Hr).
  eexists _, _, vs. split; [exact E|]. simpl. split_and!; [|done|done|].
  - eapply copied_lower; [|done]. lia.
  - eapply Forall2_impl; [done|]. simpl. intros a b Hab.
    apply represents_app. eapply represents_lower; [|done]. lia.
Qed.

Lemma summary_fails_empty r : summary_fails r -> summary_of r = JStr "".
Proof.
  destruct r as [|s [[]|]]; simpl; try done.
  intros Hs. by rewrite bool_decide_eq_false_2.
Qed.

Lemma search_fails_no_data r : search_fails r -> search_data r = None.
Proof.
  destruct r as [|s b]; simpl; [done|]. intros Hs.
  by rewrite bool_decide_eq_true_2.
Qed.


(** ** Recency *)

Section recency.
Context {A : Type} `{EqDecision A}.
Implicit Types (l d : list A) (k : A).

Lemma lastn_app_exact m (x y : list A) : length y = m -> lastn m (x ++ y) = y.
Proof.
  intros <-. unfold lastn. apply drop_app_length'. rewrite length_app. lia.
Qed.

Lemma lastn_short m l : length l <= m -> lastn m l = l.
Proof. intros H. unfold lastn. by replace (length l - m) with 0 by lia. Qed.

Lemma lastn_split m l :
  exists old, l = old ++ lastn m l /\ (old = [] \/ length (lastn m l) = m).
Proof.
  exists (take (length l - m) l). unfold lastn. split; [by rewrite take_drop|].
  destruct (decide (length l <= m)) as [Hle|Hgt].
  - left. by replace (length l - m) with 0 by lia.
  - right. rewrite length_drop. lia.
Qed.

Lemma filter_ne_id k l : k ∉ l -> filter (fun x => x <> k) l = l.
Proof.
  induction l as [|x l IH]; [done|].
  intros [? ?]%not_elem_of_cons. rewrite filter_cons_True by done.
  by rewrite IH.
Qed.

Lemma filter_ne_length k l :
  NoDup l -> k ∈ l -> S (length (filter (fun x => x <> k) l)) = length l.
Proof.
  induction l as [|x l IH]; intros Hd Hin; [by apply elem_of_nil in Hin|].
  apply NoDup_cons in Hd as [Hx Hd].
  destruct (decide (x = k)) as [->|Hne].
  - rewrite filter_cons_False by (intros ?; done).
    rewrite filter_ne_id by done. done.
  - rewrite filter_cons_True by done. simpl.
    apply elem_of_cons in Hin as [->|Hin]; [done|]. by rewrite IH.
Qed.

Lemma remove_dups_snoc l k :
  remove_dups (l ++ [k]) = filter (fun x => x <> k) (remove_dups l) ++ [k].
Proof.
  induction l as [|x l IH]; simpl; [done|]. rewrite IH.
  destruct (decide_rel elem_of x (l ++ [k])) as [Hin1|Hin1],
           (decide_rel elem_of x l) as [Hin2|Hin2].
  - done.
  - apply elem_of_app in Hin1 as [?|Hk]; [done|].
    apply list_elem_of_singleton in Hk as ->.
    by rewrite filter_cons_False by (intros ?; done).
  - destruct Hin1. apply elem_of_app. by left.
  - rewrite filter_cons_True; [done|].
    intros ->. apply Hin1, elem_of_app. right. apply list_elem_of_here.
Qed.

(** A use of a key among the [m] most recent ones moves it to the end. *)
Lemma lastn_use_present m d k :
  NoDup d -> k ∈ lastn m d ->
  lastn m (filter (fun x => x <> k) d ++ [k]) =
  filter (fun x => x <> k) (lastn m d) ++ [k].
Proof.
  intros Hd Hin. destruct (lastn_split m d) as (old & E & Hold).
  set (recent := lastn m d) in *. rewrite E in Hd |- *.
  apply NoDup_app in Hd as (_ & Hdis & Hr).
  assert (k ∉ old) as Hk by (intros ?; by eapply Hdis).
  rewrite filter_app, (filter_ne_id k old), <- app_assoc by done.
  pose proof (filter_ne_length k recent Hr Hin) as Hlen.
  destruct Hold as [->|Hm].
  - simpl. apply lastn_short. rewrite length_app. simpl.
    assert (length recent <= m); [|lia].
    unfold recent, lastn. rewrite length_drop. lia.
  - apply lastn_app_exact. rewrite length_app. simpl. lia.
Qed.

(** A use of any other key appends it, and drops the first of the [m]
    when they are [m] already. *)
Lemma lastn_use_absent m d k :
  0 < m -> NoDup d -> k ∉ lastn m d ->
  lastn m (filter (fun x => x <> k) d ++ [k]) =
  (if bool_decide (m <= length (lastn m d)) then tail (lastn m d)
   else lastn m d) ++ [k].
Proof.
  intros Hm Hd Hin. destruct (lastn_split m d) as (old & E & Hold).
  set (recent := lastn m d) in *. rewrite E at 1.
  rewrite filter_app, (filter_ne_id k recent), <- app_assoc by done.
  assert (length recent <= m) as Hle.
  { unfold recent, lastn. rewrite length_drop. lia. }
  case_bool_decide as Hfull.
  - destruct recent as [|x recent']; [simpl in *; lia|]. simpl.
    change (x :: recent' ++ [k]) with ([x] ++ (recent' ++ [k])).
    rewrite app_assoc. apply lastn_app_exact.
    rewrite length_app. simpl in *. lia.
  - destruct Hold as [->|?]; [|lia]. simpl. apply lastn_short.
    rewrite length_app. simpl. lia.
Qed.
End recency.

Lemma drop_key_keys k c :
  (drop_key k c).*1 = filter (fun x => x <> k) (c.*1).
Proof.
  unfold drop_key. induction c as [|e c IH]; [done|].
  rewrite fmap_cons. destruct (decide (e.1 <> k)).
  - rewrite !filter_cons_True by done. by rewrite fmap_cons, IH.
  - by rewrite !filter_cons_False by done.
Qed.

Lemma lru_touch_keys k v c :
  (lru_touch k v c).*1 = filter (fun x => x <> k) (c.*1) ++ [k].
Proof. unfold lru_touch. by rewrite fmap_app, drop_key_keys. Qed.

Lemma lru_store_keys k v c :
  assoc k c = None ->
  (lru_store k v c).*1 =
  (if bool_decide (maxsize <= length (c.*1)) then tail (c.*1) else c.*1) ++ [k].
Proof.
  intros E. unfold lru_store. rewrite E, length_fmap.
  case_bool_decide; by rewrite fmap_app, ?fmap_tail.
Qed.

Section runs.
Variable lim : nat.
Variable net : nat -> request -> reply.

Lemma call_keeps_lru q n st hist r st' :
  lru_state st hist ->
  open_book_search lim net q n st = Some (r, st') ->
  lru_state st' (hist ++ (if uses_key r then [(q, n)] else [])).
Proof.
  intros [Hok Hk] E. split.
  { destruct (call_total lim net q n st Hok) as (r' & st'' & E' & Hok').
    rewrite E' in E. by simplify_eq. }
  unfold most_recent in *.
  destruct (assoc (q, n) (cache st)) as [vs|] eqn:Ea.
  - destruct (cached_entry_ok _ _ _ Hok Ea) as [_ (ts & F)]. simpl in F.
    destruct (hit_call lim net q n st vs ts Ea F) as (r' & ext & E' & Hr).
    rewrite E' in E. simplify_eq. rewrite (copied_uses_key _ _ _ _ _ Hr). simpl.
    rewrite lru_touch_keys, remove_dups_snoc, Hk.
    symmetry. apply lastn_use_present; [apply NoDup_remove_dups|].
    rewrite <- Hk. apply assoc_Some_elem in Ea.
    by apply (list_elem_of_fmap_2 fst) in Ea.
  - pose proof (miss_call lim net q n st Ea) as Hm.
    destruct (search_value _ _ _ _) as [ts|e] eqn:Es.
    + destruct Hm as (r' & vs & e1 & e2 & E' & _ & Hr).
      rewrite E' in E. simplify_eq. rewrite (copied_uses_key _ _ _ _ _ Hr).
      simpl.
      rewrite lru_store_keys, remove_dups_snoc, Hk by done.
      symmetry. apply lastn_use_absent;
        [unfold maxsize; lia | apply NoDup_remove_dups |].
      rewrite <- Hk. by apply assoc_None.
    + destruct Hm as (e1 & E'). rewrite E' in E. simplify_eq.
      destruct (search_value_raise _ _ _ _ _ Es) as [-> | [-> | ->]];
        simpl; by rewrite app_nil_r.
Qed.

Lemma run_keeps_lru calls :
  forall st hist,
    lru_state st hist ->
    exists st',
      run_calls lim net calls st = Some st' /\
      lru_state st' (hist ++ used_keys lim net calls st).
Proof.
  induction calls as [|[q n] calls IH]; intros st hist Hl; simpl.
  - exists st. by rewrite app_nil_r.
  - destruct (call_total lim net q n st (proj1 Hl)) as (r & st1 & E & _).
    rewrite E. pose proof (call_keeps_lru q n st hist r st1 Hl E) as Hl1.
    destruct (IH st1 _ Hl1) as (st' & -> & Hl').
    exists st'. split; [done|]. by rewrite <- app_assoc in Hl'.
Qed.
End runs.

Lemma init_state_lru : lru_state init_state [].
Proof. split; [apply init_state_ok | done]. Qed.

(** ** When a call raises *)

(** From a state that satisfies the invariant, an exception leaves the call
    at the copy of line 72, as [RecursionError], or on a miss, for a payload
    that was received and decoded, when [data[1]], [data[3]] or
    [zip(titles, urls)] raises on it. *)
Lemma raise_is_unexpected_shape lim net q n st e st' :
  cache_ok st ->
  open_book_search lim net q n st = Some (Raise e, st') ->
  e = RecursionError \/
  (q <> "" /\
   assoc (q, n) (cache st) = None /\
   cache st' = cache st /\
   log st' = log st ++ [SearchGet q n] /\
   exists d,
     search_data (net (length (log st)) (SearchGet q n)) = Some d /\
     json_pairs d = Raise e).
Proof.
  intros Hok E. destruct (assoc (q, n) (cache st)) as [vs|] eqn:Ea.
  - destruct (cached_entry_ok _ _ _ Hok Ea) as [_ (ts & F)]. simpl in F.
    destruct (hit_call lim net q n st vs ts Ea F) as (r & ext & E' & Hr).
    rewrite E' in E. simplify_eq. apply copied_raise in Hr as [-> _]. by left.
  - pose proof (miss_call lim net q n st Ea) as Hm.
    unfold search_value, search_requests in Hm.
    case_bool_decide as Hq.
    { destruct Hm as (r & vs & e1 & e2 & E' & _ & Hr). rewrite E' in E.
      simplify_eq. apply copied_raise in Hr as [-> _]. by left. }
    destruct (search_data _) as [d|].
    2: { destruct Hm as (r & vs & e1 & e2 & E' & _ & Hr). rewrite E' in E.
         simplify_eq. apply copied_raise in Hr as [-> _]. by left. }
    destruct (json_pairs d) as [pairs|e0] eqn:Ep.
    { destruct Hm as (r & vs & e1 & e2 & E' & _ & Hr). rewrite E' in E.
      simplify_eq. apply copied_raise in Hr as [-> _]. by left. }
    destruct Hm as (e1 & E'). rewrite E' in E. simplify_eq. right.
    split_and!; [done | done | done | done |]. by exists d.
Qed.

(** * The claims *)

(** Closed side conditions of the examples. *)
Ltac evaluate := done || lia || (apply shallow_check; reflexivity).

(** C1 (the code departs from the claim).  The claim: no exception ever
    leaves [open_book_search].  The handler of lines 31-38 covers the
    request and the JSON parse only: [data[1]], [data[3]] and [zip] run
    outside it.  When the API answers 200 with a JSON object, [data[1]]
    raises [KeyError], and the exception reaches the caller. *)
Theorem malformed_payload_raises lim :
  exists st,
    open_book_search lim net_error "q" 3 init_state = Some (Raise KeyError, st) /\
    log st = [SearchGet "q" 3] /\
    cache st = [].
Proof. eexists. split_and!; [vm_compute; reflexivity | done | done]. Qed.

(** C2.  When the search misses the cache, the endpoint answers with a
    payload whose element 1 is the array [titles] and element 3 the array
    [urls], and no record made of them goes deeper than [copy.deepcopy] can
    follow, the call returns a list that denotes [records]: one record per
    zipped pair, in the order of the titles, the [i]-th made of the [i]-th
    title, the [i]-th URL and the summary fetched by the [i]-th summary
    request. *)
Theorem search_records lim net q n st s x0 titles x2 urls rest :
  assoc (q, n) (cache st) = None ->
  q <> "" ->
  net (length (log st)) (SearchGet q n) =
    Response s (Some (JArr (x0 :: JArr titles :: x2 :: JArr urls :: rest))) ->
  ~ (400 <= s < 600)%Z ->
  shallow lim (records net (S (length (log st))) (zip titles urls)) ->
  exists v st' rs,
    open_book_search lim net q n st = Some (Ret v, st') /\
    represents 0 (objects st') v (JArr rs) = true /\
    rs = records net (S (length (log st))) (zip titles urls) /\
    forall i title url,
      titles !! i = Some title -> urls !! i = Some url ->
      rs !! i =
        Some (record title url
                (summary_of (net (S (length (log st)) + i)
                                 (SummaryGet (json_text title))))).
Proof.
  intros Ea Hq Hn Hs Hd.
  destruct (answered_miss lim net q n st s x0 titles x2 urls rest Ea Hq Hn Hs)
    as (r & st' & vs0 & E & (v & -> & Hv)%copied_shallow & _); [|done].
  exists v, st', (records net (S (length (log st))) (zip titles urls)).
  split_and!; [done | done | done |].
  intros i title url Ht Hu.
  apply (records_lookup net _ _ i (title, url)).
  apply lookup_zip_with_Some. by exists title, url.
Qed.

Lemma search_records_witness :
  (assoc ("q", 3%Z) (cache init_state) = None /\
   "q" <> "" /\
   net_ab 0 (SearchGet "q" 3) =
     Response 200
       (Some (JArr [JStr "q"; JArr [JStr "A"; JStr "B"];
                    JArr [JStr ""; JStr ""]; JArr [JStr "u1"; JStr "u2"]])) /\
   ~ (400 <= 200 < 600)%Z /\
   shallow sample_limit
     (records net_ab 1 (zip [JStr "A"; JStr "B"] [JStr "u1"; JStr "u2"]))) /\
  exists v st' rs,
    open_book_search sample_limit net_ab "q" 3 init_state = Some (Ret v, st') /\
    represents 0 (objects st') v (JArr rs) = true /\
    rs = [record (JStr "A") (JStr "u1") (JStr "sA");
          record (JStr "B") (JStr "u2") (JStr "sB")] /\
    forall i title url,
      [JStr "A"; JStr "B"] !! i = Some title ->
      [JStr "u1"; JStr "u2"] !! i = Some url ->
      rs !! i =
        Some (record title url
                (summary_of (net_ab (1 + i) (SummaryGet (json_text title))))).
Proof.
  split; [split_and!; evaluate |].
  apply (search_records sample_limit net_ab "q" 3 init_state
           200%Z (JStr "q") [JStr "A"; JStr "B"] (JArr [JStr ""; JStr ""])
           [JStr "u1"; JStr "u2"] []); evaluate.
Defined.




(** C4.  The list a call returns, its records and everything under them are
    objects of their own: no object the caller can reach from the result is
    part of the cache.  So whatever the caller writes into those objects,
    and whatever it allocates besides (the heap [h'] differs from the heap
    after the call only at locations reachable from the result, or beyond
    its end), the cache is intact and the next call with the same arguments
    returns the documents the first one returned, without a request.  Those
    documents are the ones the tuple stored under the key denotes: before
    the caller's writes, after them, and after the second call, which
    leaves the same tuple under the key. *)
Theorem copy_isolation lim net q n st v st1 h' :
  cache_ok st ->
  open_book_search lim net q n st = Some (Ret v, st1) ->
  length (objects st1) <= length h' ->
  (forall l, l < length (objects st1) ->
             ~ reachable (objects st1) v l -> h' !! l = objects st1 !! l) ->
  exists t v2 st2,
    represents 0 (objects st1) v t = true /\
    cache_ok (set_objects h' st1) /\
    open_book_search lim net q n (set_objects h' st1) = Some (Ret v2, st2) /\
    represents 0 (objects st2) v2 t = true /\
    log st2 = log st1 /\
    exists vs ts,
      t = JArr ts /\
      assoc (q, n) (cache st1) = Some vs /\
      Forall2 (fun c d => represents 0 (objects st1) c d = true) vs ts /\
      Forall2 (fun c d => represents 0 h' c d = true) vs ts /\
      assoc (q, n) (cache st2) = Some vs /\
      Forall2 (fun c d => represents 0 (objects st2) c d = true) vs ts.
Proof.
  intros Hok E Hlen Hag.
  destruct (call_ret lim net q n st v st1 Hok E)
    as (vs & ts & hc & ext & Eh & Hc & Ea & F & Hv & Hd).
  destruct (agree_prefix hc h') as [rest ->].
  { rewrite Eh, length_app in Hlen. lia. }
  { intros l Hl. rewrite Hag.
    - rewrite Eh. by apply lookup_app_l.
    - rewrite Eh, length_app. lia.
    - rewrite Eh. intros R. pose proof (represents_reach _ _ _ _ _ Hv R). lia. }
  assert (Forall2 (fun v t => represents 0 (hc ++ rest) v t = true) vs ts) as F1.
  { eapply Forall2_impl; [done|]. intros ???. by apply represents_app. }
  destruct (hit_call lim net q n (set_objects (hc ++ rest) st1) vs ts Ea F1)
    as (r2 & e2 & E2 & (v2 & -> & Hv2)%copied_shallow); [|done].
  eexists (JArr ts), v2, _. split_and!; [| | exact E2 | | done |].
  - rewrite Eh. eapply represents_lower; [|done]. lia.
  - unfold cache_ok. simpl. by apply cache_inv_app.
  - simpl. eapply represents_lower; [|done]. lia.
  - exists vs, ts. split_and!; [done | done | | done | apply lru_touch_assoc |].
    + rewrite Eh. eapply Forall2_impl; [exact F|]. intros ???.
      by apply represents_app.
    + simpl. eapply Forall2_impl; [exact F1|]. intros ???.
      by apply represents_app.
Qed.

Lemma copy_isolation_witness :
  (cache_ok init_state /\
   open_book_search sample_limit net_ab "q" 3 init_state = Some (Ret (VRef 10), state_ab) /\
   length (objects state_ab) <= length (objects state_ab_mutated) /\
   (forall l, l < length (objects state_ab) ->
              ~ reachable (objects state_ab) (VRef 10) l ->
              objects state_ab_mutated !! l = objects state_ab !! l)) /\
  exists t v2 st2,
    represents 0 (objects state_ab) (VRef 10) t = true /\
    cache_ok (set_objects (objects state_ab_mutated) state_ab) /\
    open_book_search sample_limit net_ab "q" 3
      (set_objects (objects state_ab_mutated) state_ab) = Some (Ret v2, st2) /\
    represents 0 (objects st2) v2 t = true /\
    log st2 = log state_ab /\
    exists vs ts,
      t = JArr ts /\
      assoc ("q", 3%Z) (cache state_ab) = Some vs /\
      Forall2 (fun c d => represents 0 (objects state_ab) c d = true) vs ts /\
      Forall2 (fun c d => represents 0 (objects state_ab_mutated) c d = true)
        vs ts /\
      assoc ("q", 3%Z) (cache st2) = Some vs /\
      Forall2 (fun c d => represents 0 (objects st2) c d = true) vs ts.
Proof.
  assert (forall l, l < length (objects state_ab) ->
            ~ reachable (objects state_ab) (VRef 10) l ->
            objects state_ab_mutated !! l = objects state_ab !! l) as Hag.
  { intros l Hl Hn.
    do 8 (destruct l as [|l]; [reflexivity|]).
    destruct l as [|l].
    { destruct Hn. eapply reach_step with (v := VRef 8);
        [reflexivity | by apply list_elem_of_here | apply reach_here]. }
    destruct l as [|l]; [reflexivity|].
    destruct l as [|l]; [destruct Hn; apply reach_here|].
    simpl in Hl. lia. }
  split.
  { split_and!; [exact init_state_ok | vm_compute; reflexivity
                | simpl; lia | exact Hag]. }
  apply (copy_isolation sample_limit net_ab "q" 3 init_state (VRef 10) state_ab
           (objects state_ab_mutated));
    [exact init_state_ok | vm_compute; reflexivity | simpl; lia | exact Hag].
Defined.

(** C5.  When the search request fails (no connection, or a status that
    [raise_for_status] rejects) the call returns the empty list after that
    one request, and the empty tuple is stored under the key.  From then on,
    in any state in which the key still holds the empty tuple, the call
    returns the empty list again and issues no request. *)
Theorem failed_search_is_memoized lim net q n st :
  assoc (q, n) (cache st) = None ->
  q <> "" ->
  search_fails (net (length (log st)) (SearchGet q n)) ->
  exists v st1,
    open_book_search lim net q n st = Some (Ret v, st1) /\
    represents 0 (objects st1) v (JArr []) = true /\
    log st1 = log st ++ [SearchGet q n] /\
    assoc (q, n) (cache st1) = Some [] /\
    forall st2,
      assoc (q, n) (cache st2) = Some [] ->
      exists v2 st3,
        open_book_search lim net q n st2 = Some (Ret v2, st3) /\
        represents 0 (objects st3) v2 (JArr []) = true /\
        log st3 = log st2 /\
        assoc (q, n) (cache st3) = Some [].
Proof.
  intros Ea Hq Hf%search_fails_no_data.
  pose proof (miss_call lim net q n st Ea) as Hm.
  unfold search_value, search_requests in Hm.
  rewrite bool_decide_eq_false_2, Hf in Hm by done.
  destruct Hm as (r & vs & e1 & e2 & E & ->%Forall2_nil_inv_r
                     & (v & -> & Hv)%copied_shallow); [|apply shallow_nil].
  eexists v, _. split_and!; [exact E | | done | |].
  - simpl. eapply represents_lower; [|done]. lia.
  - simpl. by apply lru_store_assoc.
  - intros st2 E2.
    destruct (hit_call lim net q n st2 [] [] E2)
      as (r2 & e3 & E3 & (v2 & -> & Hv2)%copied_shallow);
      [constructor | | apply shallow_nil].
    eexists v2, _. split_and!; [exact E3 | | done |].
    + simpl. eapply represents_lower; [|done]. lia.
    + simpl. apply lru_touch_assoc.
Qed.

Lemma failed_search_is_memoized_witness :
  (assoc ("q", 3%Z) (cache init_state) = None /\
   "q" <> "" /\
   search_fails (net_down (length (log init_state)) (SearchGet "q" 3))) /\
  exists v st1,
    open_book_search sample_limit net_down "q" 3 init_state = Some (Ret v, st1) /\
    represents 0 (objects st1) v (JArr []) = true /\
    log st1 = log init_state ++ [SearchGet "q" 3] /\
    assoc ("q", 3%Z) (cache st1) = Some [] /\
    forall st2,
      assoc ("q", 3%Z) (cache st2) = Some [] ->
      exists v2 st3,
        open_book_search sample_limit net_down "q" 3 st2 = Some (Ret v2, st3) /\
        represents 0 (objects st3) v2 (JArr []) = true /\
        log st3 = log st2 /\
        assoc ("q", 3%Z) (cache st3) = Some [].
Proof.
  split; [split_and!; (done || lia) |].
  apply (failed_search_is_memoized sample_limit net_down "q" 3 init_state); done.
Defined.

(** C6.  On a well-formed answer whose records go no deeper than
    [copy.deepcopy] can follow, when the summary request of the [i]-th
    pair fails or comes back with a status other than 200, the call still
    returns one record per pair; the [i]-th has the empty string for a
    summary, and every other record is the one its own summary request
    gives. *)
Theorem summary_failure_is_local lim net q n st s x0 titles x2 urls rest i title url :
  assoc (q, n) (cache st) = None ->
  q <> "" ->
  net (length (log st)) (SearchGet q n) =
    Response s (Some (JArr (x0 :: JArr titles :: x2 :: JArr urls :: rest))) ->
  ~ (400 <= s < 600)%Z ->
  titles !! i = Some title ->
  urls !! i = Some url ->
  summary_fails (net (S (length (log st)) + i) (SummaryGet (json_text title))) ->
  shallow lim (records net (S (length (log st))) (zip titles urls)) ->
  exists v st' rs,
    open_book_search lim net q n st = Some (Ret v, st') /\
    represents 0 (objects st') v (JArr rs) = true /\
    length rs = length (zip titles urls) /\
    rs !! i = Some (record title url (JStr "")) /\
    forall j tj uj,
      j <> i -> titles !! j = Some tj -> urls !! j = Some uj ->
      rs !! j =
        Some (record tj uj
                (summary_of (net (S (length (log st)) + j)
                                 (SummaryGet (json_text tj))))).
Proof.
  intros Ea Hq Hn Hs Ht Hu Hf Hd.
  destruct (answered_miss lim net q n st s x0 titles x2 urls rest Ea Hq Hn Hs)
    as (r & st' & vs0 & E & (v & -> & Hv)%copied_shallow & _); [|done].
  exists v, st', (records net (S (length (log st))) (zip titles urls)).
  split_and!; [done | done | apply records_length | |].
  - rewrite (records_lookup net _ _ i (title, url)).
    + cbn [fst snd]. by rewrite (summary_fails_empty _ Hf).
    + apply lookup_zip_with_Some. by exists title, url.
  - intros j tj uj _ Htj Huj.
    apply (records_lookup net _ _ j (tj, uj)).
    apply lookup_zip_with_Some. by exists tj, uj.
Qed.

Lemma summary_failure_is_local_witness :
  (assoc ("q", 3%Z) (cache init_state) = None /\
   "q" <> "" /\
   net_a_only 0 (SearchGet "q" 3) =
     Response 200
       (Some (JArr [JStr "q"; JArr [JStr "A"; JStr "B"];
                    JArr [JStr ""; JStr ""]; JArr [JStr "u1"; JStr "u2"]])) /\
   ~ (400 <= 200 < 600)%Z /\
   [JStr "A"; JStr "B"] !! 1 = Some (JStr "B") /\
   [JStr "u1"; JStr "u2"] !! 1 = Some (JStr "u2") /\
   summary_fails (net_a_only 2 (SummaryGet (Some "B"))) /\
   shallow sample_limit
     (records net_a_only 1 (zip [JStr "A"; JStr "B"] [JStr "u1"; JStr "u2"]))) /\
  exists v st' rs,
    open_book_search sample_limit net_a_only "q" 3 init_state = Some (Ret v, st') /\
    represents 0 (objects st') v (JArr rs) = true /\
    length rs = 2 /\
    rs !! 1 = Some (record (JStr "B") (JStr "u2") (JStr "")) /\
    forall j tj uj,
      j <> 1 ->
      [JStr "A"; JStr "B"] !! j = Some tj ->
      [JStr "u1"; JStr "u2"] !! j = Some uj ->
      rs !! j =
        Some (record tj uj
                (summary_of (net_a_only (1 + j) (SummaryGet (json_text tj))))).
Proof.
  split; [split_and!; evaluate |].
  apply (summary_failure_is_local sample_limit net_a_only "q" 3 init_state
           200%Z (JStr "q") [JStr "A"; JStr "B"] (JArr [JStr ""; JStr ""])
           [JStr "u1"; JStr "u2"] [] 1 (JStr "B") (JStr "u2"));
    evaluate.
Defined.

(** C7.  With the empty query the call returns the empty list and the log
    of requests is unchanged, for every count. *)
Theorem empty_query_no_request lim net n st :
  cache_ok st ->
  exists v st',
    open_book_search lim net "" n st = Some (Ret v, st') /\
    represents 0 (objects st') v (JArr []) = true /\
    log st' = log st.
Proof.
  intros Hok. destruct (assoc ("", n) (cache st)) as [vs|] eqn:Ea.
  - destruct (cached_entry_ok _ _ _ Hok Ea) as [Hvs _].
    simpl in Hvs. rewrite (Hvs eq_refl) in Ea.
    destruct (hit_call lim net "" n st [] [] Ea)
      as (r & ext & E & (v & -> & Hv)%copied_shallow);
      [constructor | | apply shallow_nil].
    eexists v, _. split_and!; [exact E | | done].
    simpl. eapply represents_lower; [|done]. lia.
  - pose proof (miss_call lim net "" n st Ea) as Hm.
    unfold search_value, search_requests in Hm. simpl in Hm.
    destruct Hm as (r & vs & e1 & e2 & E & _ & (v & -> & Hv)%copied_shallow);
      [|apply shallow_nil].
    eexists v, _. split_and!; [exact E | | simpl; by rewrite app_nil_r].
    simpl. eapply represents_lower; [|done]. lia.
Qed.

Lemma empty_query_no_request_witness :
  cache_ok init_state /\
  exists v st',
    open_book_search sample_limit net_ab "" 5 init_state = Some (Ret v, st') /\
    represents 0 (objects st') v (JArr []) = true /\
    log st' = log init_state.
Proof.
  split; [exact init_state_ok|].
  apply (empty_query_no_request sample_limit net_ab 5 init_state). exact init_state_ok.
Defined.

(** C9.  On a well-formed answer whose arrays differ in length, and whose
    records go no deeper than [copy.deepcopy] can follow, the call returns,
    without an error, as many records as the shorter array has items; the
    [i]-th record pairs the [i]-th title with the [i]-th URL. *)
Theorem unequal_lengths_truncate lim net q n st s x0 titles x2 urls rest :
  assoc (q, n) (cache st) = None ->
  q <> "" ->
  net (length (log st)) (SearchGet q n) =
    Response s (Some (JArr (x0 :: JArr titles :: x2 :: JArr urls :: rest))) ->
  ~ (400 <= s < 600)%Z ->
  shallow lim (records net (S (length (log st))) (zip titles urls)) ->
  exists v st' rs,
    open_book_search lim net q n st = Some (Ret v, st') /\
    represents 0 (objects st') v (JArr rs) = true /\
    length rs = min (length titles) (length urls) /\
    forall i r,
      rs !! i = Some r ->
      exists title url,
        titles !! i = Some title /\ urls !! i = Some url /\
        r = record title url
              (summary_of (net (S (length (log st)) + i)
                               (SummaryGet (json_text title)))).
Proof.
  intros Ea Hq Hn Hs Hd.
  destruct (answered_miss lim net q n st s x0 titles x2 urls rest Ea Hq Hn Hs)
    as (r0 & st' & vs0 & E & (v & -> & Hv)%copied_shallow & _); [|done].
  exists v, st', (records net (S (length (log st))) (zip titles urls)).
  split_and!; [done | done | |].
  - by rewrite records_length, length_zip_with.
  - intros i r Hr.
    assert (i < length (zip titles urls)) as Hi.
    { rewrite <- (records_length net (S (length (log st)))).
      by eapply lookup_lt_Some. }
    destruct (lookup_lt_is_Some_2 _ _ Hi) as [[title url] Hp].
    rewrite (records_lookup net _ _ i _ Hp) in Hr. simplify_eq.
    apply lookup_zip_with_Some in Hp as (t' & u' & [= <- <-] & ? & ?).
    by exists title, url.
Qed.

Lemma unequal_lengths_truncate_witness :
  (assoc ("q", 3%Z) (cache init_state) = None /\
   "q" <> "" /\
   net_uneven 0 (SearchGet "q" 3) =
     Response 200
       (Some (JArr [JStr "q"; JArr [JStr "A"; JStr "B"; JStr "C"];
                    JArr []; JArr [JStr "u1"]])) /\
   ~ (400 <= 200 < 600)%Z /\
   shallow sample_limit
     (records net_uneven 1 (zip [JStr "A"; JStr "B"; JStr "C"] [JStr "u1"]))) /\
  exists v st' rs,
    open_book_search sample_limit net_uneven "q" 3 init_state = Some (Ret v, st') /\
    represents 0 (objects st') v (JArr rs) = true /\
    length rs = 1 /\
    forall i r,
      rs !! i = Some r ->
      exists title url,
        [JStr "A"; JStr "B"; JStr "C"] !! i = Some title /\
        [JStr "u1"] !! i = Some url /\
        r = record title url
              (summary_of (net_uneven (1 + i) (SummaryGet (json_text title)))).
Proof.
  split; [split_and!; evaluate |].
  apply (unequal_lengths_truncate sample_limit net_uneven "q" 3 init_state
           200%Z (JStr "q") [JStr "A"; JStr "B"; JStr "C"] (JArr [])
           [JStr "u1"] []); evaluate.
Defined.

(** C10.  [n_results] goes into the search request and nowhere else: on a
    well-formed answer whose records go no deeper than [copy.deepcopy] can
    follow, the call returns one record per zipped pair, however many that
    is and whatever [n_results] is. *)
Theorem limit_is_only_forwarded lim net q n st s x0 titles x2 urls rest :
  assoc (q, n) (cache st) = None ->
  q <> "" ->
  net (length (log st)) (SearchGet q n) =
    Response s (Some (JArr (x0 :: JArr titles :: x2 :: JArr urls :: rest))) ->
  ~ (400 <= s < 600)%Z ->
  shallow lim (records net (S (length (log st))) (zip titles urls)) ->
  exists v st' rs,
    open_book_search lim net q n st = Some (Ret v, st') /\
    represents 0 (objects st') v (JArr rs) = true /\
    length rs = length (zip titles urls) /\
    log st' !! length (log st) = Some (SearchGet q n) /\
    forall req, req ∈ drop (S (length (log st))) (log st') ->
                exists title, req = SummaryGet title.
Proof.
  intros Ea Hq Hn Hs Hd.
  destruct (answered_miss lim net q n st s x0 titles x2 urls rest Ea Hq Hn Hs)
    as (r & st' & vs0 & E & (v & -> & Hv)%copied_shallow & El & _); [|done].
  exists v, st', (records net (S (length (log st))) (zip titles urls)).
  split_and!; [done | done | apply records_length | |].
  - rewrite El. by apply list_lookup_middle.
  - intros req. rewrite El, cons_middle, app_assoc, drop_app_length'.
    + intros (p & -> & _)%list_elem_of_fmap. by eexists.
    + rewrite length_app. simpl. lia.
Qed.

Lemma limit_is_only_forwarded_witness :
  (assoc ("q", 1%Z) (cache init_state) = None /\
   "q" <> "" /\
   net_ab 0 (SearchGet "q" 1) =
     Response 200
       (Some (JArr [JStr "q"; JArr [JStr "A"; JStr "B"];
                    JArr [JStr ""; JStr ""]; JArr [JStr "u1"; JStr "u2"]])) /\
   ~ (400 <= 200 < 600)%Z /\
   shallow sample_limit
     (records net_ab 1 (zip [JStr "A"; JStr "B"] [JStr "u1"; JStr "u2"]))) /\
  exists v st' rs,
    open_book_search sample_limit net_ab "q" 1 init_state = Some (Ret v, st') /\
    represents 0 (objects st') v (JArr rs) = true /\
    length rs = 2 /\
    log st' !! 0 = Some (SearchGet "q" 1) /\
    forall req, req ∈ drop 1 (log st') -> exists title, req = SummaryGet title.
Proof.
  split; [split_and!; evaluate |].
  apply (limit_is_only_forwarded sample_limit net_ab "q" 1 init_state
           200%Z (JStr "q") [JStr "A"; JStr "B"] (JArr [JStr ""; JStr ""])
           [JStr "u1"; JStr "u2"] []); evaluate.
Defined.

(** C8.  After every sequence of calls the cache holds at most 128 keys, and
    they are the 128 most recently used distinct keys of the history, the
    least recently used first; a key is used by every call for which the
    decorated function returns.  When it holds 128 keys, a call with a key
    that is not among them and that returns a result puts that key at the
    most recently used end and drops the first key, the least recently used
    one. *)
Theorem cache_is_bounded_lru lim net calls :
  exists st,
    run_calls lim net calls init_state = Some st /\
    length (cache st) <= 128 /\
    (cache st).*1 = most_recent 128 (used_keys lim net calls init_state) /\
    forall k v st',
      length (cache st) = 128 ->
      k ∉ (cache st).*1 ->
      open_book_search lim net k.1 k.2 st = Some (Ret v, st') ->
      (cache st').*1 = tail ((cache st).*1) ++ [k].
Proof.
  destruct (run_keeps_lru lim net calls init_state [] init_state_lru)
    as (st & E & [Hok Hk]).
  exists st. split_and!; [done | apply Hok | exact Hk |].
  intros [q n] v st' Hfull Hin%assoc_None Ev. simpl in Ev.
  pose proof (miss_call lim net q n st Hin) as Hm.
  destruct (search_value _ _ _ _) as [ts|e].
  - destruct Hm as (r & vs & e1 & e2 & E' & _).
    rewrite E' in Ev. simplify_eq. simpl.
    rewrite lru_store_keys, length_fmap, Hfull by done.
    by rewrite bool_decide_eq_true_2 by (unfold maxsize; lia).
  - destruct Hm as (e1 & E'). rewrite E' in Ev. simplify_eq.
Qed.

Lemma cache_is_bounded_lru_witness :
  exists st,
    run_calls sample_limit net_down (many_keys 128) init_state = Some st /\
    length (cache st) = 128 /\
    exists v st',
      open_book_search sample_limit net_down "" 128 st = Some (Ret v, st') /\
      (cache st').*1 = tail ((cache st).*1) ++ [("", 128%Z)].
Proof.
  destruct (cache_is_bounded_lru sample_limit net_down (many_keys 128))
    as (st & E & _ & _ & Hev).
  exists st. split; [exact E|].
  vm_compute in E. injection E as <-.
  split; [vm_compute; reflexivity|].
  eexists _, _. split; [vm_compute; reflexivity|].
  eapply (Hev ("", 128%Z)).
  - vm_compute. reflexivity.
  - apply assoc_None. vm_compute. reflexivity.
  - vm_compute. reflexivity.
Defined.

(** * Further properties of the two functions *)

(** ** A miss on a decoded payload *)

Lemma search_data_Some r d :
  search_data r = Some d ->
  exists s, r = Response s (Some d) /\ ~ (400 <= s < 600)%Z.
Proof.
  destruct r as [|s b]; simpl; [done|].
  case_bool_decide; [done|]. intros ->. by exists s.
Qed.

Lemma decoded_miss lim net q n st s d :
  assoc (q, n) (cache st) = None ->
  q <> "" ->
  net (length (log st)) (SearchGet q n) = Response s (Some d) ->
  ~ (400 <= s < 600)%Z ->
  match json_pairs d with
  | Ret pairs =>
      exists r st',
        open_book_search lim net q n st = Some (r, st') /\
        copied lim 0 (objects st')
          (records net (S (length (log st))) pairs) r /\
        log st' =
          log st ++ SearchGet q n ::
            ((fun p : json * json => SummaryGet (json_text p.1)) <$> pairs) /\
        exists vs, cache st' = lru_store (q, n) vs (cache st)
  | Raise e =>
      exists st',
        open_book_search lim net q n st = Some (Raise e, st') /\
        cache st' = cache st /\
        log st' = log st ++ [SearchGet q n]
  end.
Proof.
  intros Ea Hq Hn Hs. pose proof (miss_call lim net q n st Ea) as Hm.
  unfold search_value, search_requests in Hm.
  rewrite bool_decide_eq_false_2, Hn in Hm by done.
  unfold search_data in Hm. rewrite bool_decide_eq_false_2 in Hm by done.
  destruct (json_pairs d) as [pairs|e].
  - destruct Hm as (r & vs & e1 & e2 & E & _ & Hr).
    eexists r, _. split_and!; [exact E | | done | by exists vs].
    simpl. eapply copied_lower; [|done]. lia.
  - destruct Hm as (e1 & E). eexists. by split_and!; [exact E | |].
Qed.

Lemma chars_single s i c : chars s !! i = Some c -> chars c = [c].
Proof.
  revert i. induction s as [|a s IH]; intros i H; [done|].
  destruct i as [|i]; simpl in H; [by simplify_eq | by eapply IH].
Qed.

Lemma fmap_fst_zip {A B C} (f : A -> C) (l : list A) (k : list B) :
  (fun p : A * B => f p.1) <$> zip l k = f <$> take (length k) l.
Proof.
  revert k. induction l as [|a l IH]; intros [|b k]; simpl; try done.
  by rewrite IH.
Qed.

(** ** Which exceptions leave a call, and when *)

(** X1.  From a consistent state an exception leaves [open_book_search]
    in two situations only.  Either the key was not cached, the query is
    not empty, and the search request came back with a status
    [raise_for_status] accepts and a body that is JSON: the exception is
    then [IndexError], [KeyError] or [TypeError], nothing is stored, and
    the search request is the only one made.  Or [copy.deepcopy] raises
    [RecursionError] at line 72: by then the key is in the cache, with a
    tuple of which some record goes deeper than the copy can follow. *)
Theorem exceptions_that_escape lim net q n st e st' :
  cache_ok st ->
  open_book_search lim net q n st = Some (Raise e, st') ->
  ((e = IndexError \/ e = KeyError \/ e = TypeError) /\
   q <> "" /\
   assoc (q, n) (cache st) = None /\
   (exists s d,
      net (length (log st)) (SearchGet q n) = Response s (Some d) /\
      ~ (400 <= s < 600)%Z) /\
   cache st' = cache st /\
   log st' = log st ++ [SearchGet q n]) \/
  (e = RecursionError /\
   exists vs ts,
     assoc (q, n) (cache st') = Some vs /\
     Forall2 (fun v t => represents 0 (objects st') v t = true) vs ts /\
     ~ shallow lim ts).
Proof.
  intros Hok E.
  destruct (raise_is_unexpected_shape lim net q n st e st' Hok E)
    as [-> | (Hq & Ea & Hc & Hl & d & Hd & Hp)].
  - right. split; [done|].
    destruct (call_too_deep lim net q n st st' Hok E)
      as (vs & ts & Ea & F & Hs & _).
    by exists vs, ts.
  - left. destruct (search_data_Some _ _ Hd) as (s & Hn & Hs).
    split_and!; [by eapply json_pairs_raise | done | done | by exists s, d
                | done | done].
Qed.

Lemma exceptions_that_escape_witness :
  (cache_ok init_state /\
   open_book_search sample_limit net_deep "q" 3 init_state =
     Some (Raise RecursionError, state_deep)) /\
  (((RecursionError = IndexError \/ RecursionError = KeyError \/
     RecursionError = TypeError) /\
    "q" <> "" /\
    assoc ("q", 3%Z) (cache init_state) = None /\
    (exists s d,
       net_deep (length (log init_state)) (SearchGet "q" 3) =
         Response s (Some d) /\
       ~ (400 <= s < 600)%Z) /\
    cache state_deep = cache init_state /\
    log state_deep = log init_state ++ [SearchGet "q" 3]) \/
   (RecursionError = RecursionError /\
    exists vs ts,
      assoc ("q", 3%Z) (cache state_deep) = Some vs /\
      Forall2 (fun v t => represents 0 (objects state_deep) v t = true) vs ts /\
      ~ shallow sample_limit ts)).
Proof.
  split; [split; [exact init_state_ok | vm_compute; reflexivity]|].
  apply (exceptions_that_escape sample_limit net_deep "q" 3 init_state
           RecursionError state_deep);
    [exact init_state_ok | vm_compute; reflexivity].
Defined.

(** X2.  An exception of the first kind is not memoized: after a call that
    raised [IndexError], [KeyError] or [TypeError], the next call with the
    same arguments sends the search request again.  After a call that
    raised [RecursionError] the tuple is in the cache: the next call with
    the same arguments, made where the copy can go as deep, sends no
    request and raises [RecursionError] again. *)
Theorem retry_after_exception lim net q n st e st1 :
  cache_ok st ->
  open_book_search lim net q n st = Some (Raise e, st1) ->
  exists r st2,
    open_book_search lim net q n st1 = Some (r, st2) /\
    (e <> RecursionError ->
     log st2 !! length (log st1) = Some (SearchGet q n)) /\
    (e = RecursionError -> r = Raise RecursionError /\ log st2 = log st1).
Proof.
  intros Hok E.
  destruct (raise_is_unexpected_shape lim net q n st e st1 Hok E)
    as [-> | (Hq & Ea & Hc & Hl & d & Hd & Hp)].
  - destruct (call_too_deep lim net q n st st1 Hok E)
      as (vs & ts & Ea & F & Hs & _).
    destruct (hit_call lim net q n st1 vs ts Ea F)
      as (r & ext & E2 & ->%copied_deep); [|done].
    eexists _, _. split; [exact E2|]. by split.
  - rewrite <- Hc in Ea.
    assert (e <> RecursionError) as He.
    { by destruct (json_pairs_raise _ _ Hp) as [-> | [-> | ->]]. }
    pose proof (miss_call lim net q n st1 Ea) as Hm.
    unfold search_requests in Hm. rewrite bool_decide_eq_false_2 in Hm by done.
    destruct (search_value _ _ _ _).
    + destruct Hm as (r & vs & e1 & e2 & E2 & _).
      eexists _, _. split; [exact E2|]. split; [|done].
      intros _. simpl. by apply list_lookup_middle.
    + destruct Hm as (e1 & E2).
      eexists _, _. split; [exact E2|]. split; [|done].
      intros _. simpl. by apply list_lookup_middle.
Qed.

Lemma retry_after_exception_witness :
  ((cache_ok init_state /\
    open_book_search sample_limit net_error "q" 3 init_state =
      Some (Raise KeyError, state_error)) /\
   exists r st2,
     open_book_search sample_limit net_error "q" 3 state_error =
       Some (r, st2) /\
     (KeyError <> RecursionError ->
      log st2 !! length (log state_error) = Some (SearchGet "q" 3)) /\
     (KeyError = RecursionError ->
      r = Raise RecursionError /\ log st2 = log state_error)) /\
  ((cache_ok init_state /\
    open_book_search sample_limit net_deep "q" 3 init_state =
      Some (Raise RecursionError, state_deep)) /\
   exists r st2,
     open_book_search sample_limit net_deep "q" 3 state_deep =
       Some (r, st2) /\
     (RecursionError <> RecursionError ->
      log st2 !! length (log state_deep) = Some (SearchGet "q" 3)) /\
     (RecursionError = RecursionError ->
      r = Raise RecursionError /\ log st2 = log state_deep)).
Proof.
  split.
  - split; [split; [exact init_state_ok | vm_compute; reflexivity]|].
    apply (retry_after_exception sample_limit net_error "q" 3 init_state
             KeyError state_error);
      [exact init_state_ok | vm_compute; reflexivity].
  - split; [split; [exact init_state_ok | vm_compute; reflexivity]|].
    apply (retry_after_exception sample_limit net_deep "q" 3 init_state
             RecursionError state_deep);
      [exact init_state_ok | vm_compute; reflexivity].
Defined.

(** X20.  On a well-formed answer of which some record goes deeper than
    [copy.deepcopy] can follow (a title, a URL or an [extract] that is a
    deeply nested array or object), a miss raises [RecursionError].  It
    does so at line 72, outside both handlers and after the decorator has
    stored the tuple: every request was made, and the records are in the
    cache under the key. *)
Theorem deep_record_raises_recursion_error
    lim net q n st s x0 titles x2 urls rest :
  assoc (q, n) (cache st) = None ->
  q <> "" ->
  net (length (log st)) (SearchGet q n) =
    Response s (Some (JArr (x0 :: JArr titles :: x2 :: JArr urls :: rest))) ->
  ~ (400 <= s < 600)%Z ->
  ~ shallow lim (records net (S (length (log st))) (zip titles urls)) ->
  exists st' vs,
    open_book_search lim net q n st = Some (Raise RecursionError, st') /\
    assoc (q, n) (cache st') = Some vs /\
    Forall2 (fun v t => represents 0 (objects st') v t = true) vs
      (records net (S (length (log st))) (zip titles urls)) /\
    log st' =
      log st ++ SearchGet q n ::
        ((fun p : json * json => SummaryGet (json_text p.1)) <$> zip titles urls).
Proof.
  intros Ea Hq Hn Hs Hd.
  destruct (answered_miss lim net q n st s x0 titles x2 urls rest Ea Hq Hn Hs)
    as (r & st' & vs & E & ->%copied_deep & Hl & Hc & F); [|done].
  exists st', vs. split_and!; [done | | done | done].
  rewrite Hc. by apply lru_store_assoc.
Qed.

Lemma deep_record_raises_recursion_error_witness :
  (assoc ("q", 3%Z) (cache init_state) = None /\
   "q" <> "" /\
   net_deep 0 (SearchGet "q" 3) =
     Response 200
       (Some (JArr [JStr "q"; JArr [JStr "A"]; JArr [JStr ""];
                    JArr [JStr "u1"]])) /\
   ~ (400 <= 200 < 600)%Z /\
   ~ shallow sample_limit (records net_deep 1 (zip [JStr "A"] [JStr "u1"]))) /\
  exists st' vs,
    open_book_search sample_limit net_deep "q" 3 init_state =
      Some (Raise RecursionError, st') /\
    assoc ("q", 3%Z) (cache st') = Some vs /\
    Forall2 (fun v t => represents 0 (objects st') v t = true) vs
      (records net_deep 1 (zip [JStr "A"] [JStr "u1"])) /\
    log st' = [SearchGet "q" 3; SummaryGet (Some "A")].
Proof.
  assert (~ shallow sample_limit
            (records net_deep 1 (zip [JStr "A"] [JStr "u1"]))) as Hd.
  { intros [H _]%Forall_cons. vm_compute in H.
    apply (proj2 (Nat.leb_le _ _)) in H. vm_compute in H. discriminate. }
  split; [split_and!; (done || lia) |].
  apply (deep_record_raises_recursion_error sample_limit net_deep "q" 3
           init_state 200%Z (JStr "q") [JStr "A"] (JArr [JStr ""])
           [JStr "u1"] []); (done || lia).
Defined.

(** X3.  A search payload that is an array of fewer than four items makes
    the call raise [IndexError] ([data[1]] or [data[3]] is out of range);
    nothing is stored and no summary is requested. *)
Theorem short_payload_raises_index_error lim net q n st s items :
  assoc (q, n) (cache st) = None ->
  q <> "" ->
  net (length (log st)) (SearchGet q n) = Response s (Some (JArr items)) ->
  ~ (400 <= s < 600)%Z ->
  length items < 4 ->
  exists st',
    open_book_search lim net q n st = Some (Raise IndexError, st') /\
    cache st' = cache st /\
    log st' = log st ++ [SearchGet q n].
Proof.
  intros Ea Hq Hn Hs Hlen.
  pose proof (decoded_miss lim net q n st s (JArr items) Ea Hq Hn Hs) as Hm.
  assert (json_pairs (JArr items) = Raise IndexError) as Hp.
  { destruct items as [|a [|b [|c [|d items]]]]; try done. simpl in Hlen. lia. }
  by rewrite Hp in Hm.
Qed.

Lemma short_payload_raises_index_error_witness :
  (assoc ("q", 3%Z) (cache init_state) = None /\
   "q" <> "" /\
   net_short (length (log init_state)) (SearchGet "q" 3) =
     Response 200 (Some (JArr [JStr "q"; JArr [JStr "A"]; JArr [JStr ""]])) /\
   ~ (400 <= 200 < 600)%Z /\
   length [JStr "q"; JArr [JStr "A"]; JArr [JStr ""]] < 4) /\
  exists st',
    open_book_search sample_limit net_short "q" 3 init_state = Some (Raise IndexError, st') /\
    cache st' = cache init_state /\
    log st' = log init_state ++ [SearchGet "q" 3].
Proof.
  split; [split_and!; (done || (simpl; lia)) |].
  apply (short_payload_raises_index_error sample_limit net_short "q" 3 init_state 200%Z
           [JStr "q"; JArr [JStr "A"]; JArr [JStr ""]]);
    (done || (simpl; lia)).
Defined.

(** X4.  A search payload that is a JSON object makes the call raise
    [KeyError] ([data[1]] looks up the key 1); nothing is stored and no
    summary is requested. *)
Theorem object_payload_raises_key_error lim net q n st s kvs :
  assoc (q, n) (cache st) = None ->
  q <> "" ->
  net (length (log st)) (SearchGet q n) = Response s (Some (JObj kvs)) ->
  ~ (400 <= s < 600)%Z ->
  exists st',
    open_book_search lim net q n st = Some (Raise KeyError, st') /\
    cache st' = cache st /\
    log st' = log st ++ [SearchGet q n].
Proof.
  intros Ea Hq Hn Hs.
  exact (decoded_miss lim net q n st s (JObj kvs) Ea Hq Hn Hs).
Qed.

Lemma object_payload_raises_key_error_witness :
  (assoc ("q", 3%Z) (cache init_state) = None /\
   "q" <> "" /\
   net_error (length (log init_state)) (SearchGet "q" 3) =
     Response 200
       (Some (JObj [("error", JObj [("code", JStr "badvalue")]);
                    ("servedby", JStr "mw")])) /\
   ~ (400 <= 200 < 600)%Z) /\
  exists st',
    open_book_search sample_limit net_error "q" 3 init_state = Some (Raise KeyError, st') /\
    cache st' = cache init_state /\
    log st' = log init_state ++ [SearchGet "q" 3].
Proof.
  split; [split_and!; (done || lia) |].
  apply (object_payload_raises_key_error sample_limit net_error "q" 3 init_state 200%Z
           [("error", JObj [("code", JStr "badvalue")]); ("servedby", JStr "mw")]);
    (done || lia).
Defined.

(** X5.  A search payload that is [null], a boolean or a number makes the
    call raise [TypeError] (the value cannot be subscripted). *)
Theorem scalar_payload_raises_type_error lim net q n st s d :
  assoc (q, n) (cache st) = None ->
  q <> "" ->
  net (length (log st)) (SearchGet q n) = Response s (Some d) ->
  ~ (400 <= s < 600)%Z ->
  scalar d = true ->
  exists st',
    open_book_search lim net q n st = Some (Raise TypeError, st') /\
    cache st' = cache st /\
    log st' = log st ++ [SearchGet q n].
Proof.
  intros Ea Hq Hn Hs Hd.
  pose proof (decoded_miss lim net q n st s d Ea Hq Hn Hs) as Hm.
  by destruct d.
Qed.

Lemma scalar_payload_raises_type_error_witness :
  (assoc ("q", 3%Z) (cache init_state) = None /\
   "q" <> "" /\
   net_number (length (log init_state)) (SearchGet "q" 3) =
     Response 200 (Some (JNum 7)) /\
   ~ (400 <= 200 < 600)%Z /\
   scalar (JNum 7) = true) /\
  exists st',
    open_book_search sample_limit net_number "q" 3 init_state = Some (Raise TypeError, st') /\
    cache st' = cache init_state /\
    log st' = log init_state ++ [SearchGet "q" 3].
Proof.
  split; [split_and!; (done || lia) |].
  apply (scalar_payload_raises_type_error sample_limit net_number "q" 3 init_state 200%Z
           (JNum 7)); (done || lia).
Defined.

(** X6.  A search payload with four items or more, whose element 1 or
    element 3 is [null], a boolean or a number, makes the call raise
    [TypeError] ([zip] cannot iterate it); no summary is requested. *)
Theorem scalar_titles_raise_type_error lim net q n st s x0 t1 x2 t3 rest :
  assoc (q, n) (cache st) = None ->
  q <> "" ->
  net (length (log st)) (SearchGet q n) =
    Response s (Some (JArr (x0 :: t1 :: x2 :: t3 :: rest))) ->
  ~ (400 <= s < 600)%Z ->
  scalar t1 = true \/ scalar t3 = true ->
  exists st',
    open_book_search lim net q n st = Some (Raise TypeError, st') /\
    cache st' = cache st /\
    log st' = log st ++ [SearchGet q n].
Proof.
  intros Ea Hq Hn Hs Ht.
  pose proof (decoded_miss lim net q n st s _ Ea Hq Hn Hs) as Hm.
  assert (json_pairs (JArr (x0 :: t1 :: x2 :: t3 :: rest)) = Raise TypeError)
    as Hp.
  { unfold json_pairs. simpl. destruct Ht as [Ht|Ht].
    - by destruct t1.
    - by destruct t1, t3. }
  by rewrite Hp in Hm.
Qed.

Lemma scalar_titles_raise_type_error_witness :
  (assoc ("q", 3%Z) (cache init_state) = None /\
   "q" <> "" /\
   net_null_urls (length (log init_state)) (SearchGet "q" 3) =
     Response 200
       (Some (JArr [JStr "q"; JArr [JStr "A"]; JArr [JStr ""]; JNull])) /\
   ~ (400 <= 200 < 600)%Z /\
   (scalar (JArr [JStr "A"]) = true \/ scalar JNull = true)) /\
  exists st',
    open_book_search sample_limit net_null_urls "q" 3 init_state =
      Some (Raise TypeError, st') /\
    cache st' = cache init_state /\
    log st' = log init_state ++ [SearchGet "q" 3].
Proof.
  split; [split_and!; first [done | lia | by right] |].
  apply (scalar_titles_raise_type_error sample_limit net_null_urls "q" 3 init_state 200%Z
           (JStr "q") (JArr [JStr "A"]) (JArr [JStr ""]) JNull []);
    first [done | lia | by right].
Defined.

(** ** Payloads the loop accepts although they are not arrays of arrays *)

(** X7.  A search payload that is a JSON string of four characters or more
    is not rejected: [data[1]] and [data[3]] are its second and fourth
    characters, [zip] pairs them, and the call returns one record whose
    title is the second character and whose URL is the fourth, when the
    summary fetched for it goes no deeper than [copy.deepcopy] can
    follow. *)
Theorem string_payload_gives_one_record lim net q n st s text c1 c3 :
  assoc (q, n) (cache st) = None ->
  q <> "" ->
  net (length (log st)) (SearchGet q n) = Response s (Some (JStr text)) ->
  ~ (400 <= s < 600)%Z ->
  chars text !! 1 = Some c1 ->
  chars text !! 3 = Some c3 ->
  shallow lim
    [record (JStr c1) (JStr c3)
       (summary_of (net (S (length (log st))) (SummaryGet (Some c1))))] ->
  exists v st',
    open_book_search lim net q n st = Some (Ret v, st') /\
    represents 0 (objects st') v
      (JArr [record (JStr c1) (JStr c3)
               (summary_of (net (S (length (log st))) (SummaryGet (Some c1))))])
      = true /\
    log st' = log st ++ [SearchGet q n; SummaryGet (Some c1)].
Proof.
  intros Ea Hq Hn Hs H1 H3 Hd.
  pose proof (decoded_miss lim net q n st s (JStr text) Ea Hq Hn Hs) as Hm.
  assert (json_pairs (JStr text) = Ret [(JStr c1, JStr c3)]) as Hp.
  { unfold json_pairs. simpl. rewrite H1, H3. simpl.
    by rewrite (chars_single _ _ _ H1), (chars_single _ _ _ H3). }
  rewrite Hp in Hm.
  destruct Hm as (r & st' & E & (v & -> & Hv)%copied_shallow & Hl & _);
    [|done].
  by exists v, st'.
Qed.

Lemma string_payload_gives_one_record_witness :
  (assoc ("q", 3%Z) (cache init_state) = None /\
   "q" <> "" /\
   net_string (length (log init_state)) (SearchGet "q" 3) =
     Response 200 (Some (JStr "wxyz")) /\
   ~ (400 <= 200 < 600)%Z /\
   chars "wxyz" !! 1 = Some "x" /\
   chars "wxyz" !! 3 = Some "z" /\
   shallow sample_limit
     [record (JStr "x") (JStr "z")
        (summary_of (net_string 1 (SummaryGet (Some "x"))))]) /\
  exists v st',
    open_book_search sample_limit net_string "q" 3 init_state = Some (Ret v, st') /\
    represents 0 (objects st') v
      (JArr [record (JStr "x") (JStr "z") (JStr "s")]) = true /\
    log st' = log init_state ++ [SearchGet "q" 3; SummaryGet (Some "x")].
Proof.
  split; [split_and!; evaluate |].
  apply (string_payload_gives_one_record sample_limit net_string "q" 3
           init_state 200%Z "wxyz" "x" "z"); evaluate.
Defined.

(** X8.  When element 1 of the payload is a JSON object instead of an
    array, the loop runs over its keys: the [i]-th record has the [i]-th key
    for a title, paired with the [i]-th URL, and there are as many records
    as the shorter of the two has items.  The call returns them when none
    goes deeper than [copy.deepcopy] can follow. *)
Theorem object_titles_give_keys lim net q n st s x0 kvs x2 urls rest :
  assoc (q, n) (cache st) = None ->
  q <> "" ->
  net (length (log st)) (SearchGet q n) =
    Response s (Some (JArr (x0 :: JObj kvs :: x2 :: JArr urls :: rest))) ->
  ~ (400 <= s < 600)%Z ->
  shallow lim
    (records net (S (length (log st)))
       (zip ((fun kv : string * json => JStr kv.1) <$> kvs) urls)) ->
  exists v st' rs,
    open_book_search lim net q n st = Some (Ret v, st') /\
    represents 0 (objects st') v (JArr rs) = true /\
    length rs = min (length kvs) (length urls) /\
    forall i k t url,
      kvs !! i = Some (k, t) -> urls !! i = Some url ->
      rs !! i =
        Some (record (JStr k) url
                (summary_of (net (S (length (log st)) + i)
                                 (SummaryGet (Some k))))).
Proof.
  intros Ea Hq Hn Hs Hd.
  pose proof (decoded_miss lim net q n st s _ Ea Hq Hn Hs) as Hm.
  unfold json_pairs in Hm. simpl in Hm.
  destruct Hm as (r & st' & E & (v & -> & Hv)%copied_shallow & _); [|done].
  eexists v, st', _. split_and!; [exact E | exact Hv | |].
  - by rewrite records_length, length_zip_with, length_fmap.
  - intros i k t url Hk Hu.
    apply (records_lookup net _ _ i (JStr k, url)).
    apply lookup_zip_with_Some. exists (JStr k), url.
    split_and!; [done | | done]. by rewrite list_lookup_fmap, Hk.
Qed.

Lemma object_titles_give_keys_witness :
  (assoc ("q", 3%Z) (cache init_state) = None /\
   "q" <> "" /\
   net_keyed (length (log init_state)) (SearchGet "q" 3) =
     Response 200
       (Some (JArr [JStr "q"; JObj [("A", JNum 1); ("B", JNum 2)]; JNull;
                    JArr [JStr "u1"; JStr "u2"]])) /\
   ~ (400 <= 200 < 600)%Z /\
   shallow sample_limit
     (records net_keyed 1
        (zip ((fun kv : string * json => JStr kv.1) <$>
                [("A", JNum 1); ("B", JNum 2)])
             [JStr "u1"; JStr "u2"]))) /\
  exists v st' rs,
    open_book_search sample_limit net_keyed "q" 3 init_state = Some (Ret v, st') /\
    represents 0 (objects st') v (JArr rs) = true /\
    length rs = 2 /\
    forall i k t url,
      [("A", JNum 1); ("B", JNum 2)] !! i = Some (k, t) ->
      [JStr "u1"; JStr "u2"] !! i = Some url ->
      rs !! i =
        Some (record (JStr k) url
                (summary_of (net_keyed (1 + i) (SummaryGet (Some k))))).
Proof.
  split; [split_and!; evaluate |].
  apply (object_titles_give_keys sample_limit net_keyed "q" 3 init_state 200%Z
           (JStr "q") [("A", JNum 1); ("B", JNum 2)] JNull
           [JStr "u1"; JStr "u2"] []); evaluate.
Defined.

(** ** The requests of a miss *)

(** X9.  On a well-formed answer a miss makes exactly these requests, in
    this order: the search request, then one summary request per zipped
    pair, each for the title of its pair (so [1 + min(len titles, len urls)]
    requests, and a title that occurs twice is asked for twice).  These are
    the requests whether the call then returns or the copy of line 72
    raises. *)
Theorem requests_of_a_miss lim net q n st s x0 titles x2 urls rest :
  assoc (q, n) (cache st) = None ->
  q <> "" ->
  net (length (log st)) (SearchGet q n) =
    Response s (Some (JArr (x0 :: JArr titles :: x2 :: JArr urls :: rest))) ->
  ~ (400 <= s < 600)%Z ->
  exists r st',
    open_book_search lim net q n st = Some (r, st') /\
    log st' =
      log st ++ SearchGet q n ::
        ((fun t => SummaryGet (json_text t)) <$> take (length urls) titles) /\
    length (log st') =
      length (log st) + 1 + min (length titles) (length urls).
Proof.
  intros Ea Hq Hn Hs.
  destruct (answered_miss lim net q n st s x0 titles x2 urls rest Ea Hq Hn Hs)
    as (r & st' & vs0 & E & _ & Hl & _).
  rewrite (fmap_fst_zip (fun t => SummaryGet (json_text t))) in Hl.
  exists r, st'. split_and!; [done | done |].
  rewrite Hl, length_app. simpl. rewrite length_fmap, length_take. lia.
Qed.

Lemma requests_of_a_miss_witness :
  (assoc ("q", 3%Z) (cache init_state) = None /\
   "q" <> "" /\
   net_uneven 0 (SearchGet "q" 3) =
     Response 200
       (Some (JArr [JStr "q"; JArr [JStr "A"; JStr "B"; JStr "C"];
                    JArr []; JArr [JStr "u1"]])) /\
   ~ (400 <= 200 < 600)%Z) /\
  exists r st',
    open_book_search sample_limit net_uneven "q" 3 init_state = Some (r, st') /\
    log st' = [SearchGet "q" 3; SummaryGet (Some "A")] /\
    length (log st') = 2.
Proof.
  split; [split_and!; (done || lia) |].
  apply (requests_of_a_miss sample_limit net_uneven "q" 3 init_state 200%Z (JStr "q")
           [JStr "A"; JStr "B"; JStr "C"] (JArr []) [JStr "u1"] []);
    (done || lia).
Defined.

(** ** What a summary reply leaves in its record *)

(** X10.  When the summary reply of the [i]-th pair has a body that is not
    JSON, or is JSON but not an object, or is an object without the key
    [extract], the [i]-th record has the empty string for a summary,
    whatever the status, and the call returns, provided no record goes
    deeper than [copy.deepcopy] can follow. *)
Theorem summary_without_extract_is_empty
    lim net q n st s x0 titles x2 urls rest i title url s' b :
  assoc (q, n) (cache st) = None ->
  q <> "" ->
  net (length (log st)) (SearchGet q n) =
    Response s (Some (JArr (x0 :: JArr titles :: x2 :: JArr urls :: rest))) ->
  ~ (400 <= s < 600)%Z ->
  titles !! i = Some title ->
  urls !! i = Some url ->
  net (S (length (log st)) + i) (SummaryGet (json_text title)) = Response s' b ->
  no_extract b ->
  shallow lim (records net (S (length (log st))) (zip titles urls)) ->
  exists v st' rs,
    open_book_search lim net q n st = Some (Ret v, st') /\
    represents 0 (objects st') v (JArr rs) = true /\
    rs !! i = Some (record title url (JStr "")).
Proof.
  intros Ea Hq Hn Hs Ht Hu Hr Hb Hd.
  destruct (answered_miss lim net q n st s x0 titles x2 urls rest Ea Hq Hn Hs)
    as (r & st' & vs0 & E & (v & -> & Hv)%copied_shallow & _); [|done].
  eexists v, st', _. split_and!; [exact E | exact Hv |].
  rewrite (records_lookup net _ _ i (title, url)).
  - cbn [fst snd]. rewrite Hr. f_equal. f_equal.
    destruct b as [[]|]; simpl in *; try done.
    rewrite Hb. by case_bool_decide.
  - apply lookup_zip_with_Some. by exists title, url.
Qed.

Lemma summary_without_extract_is_empty_witness :
  (assoc ("q", 3%Z) (cache init_state) = None /\
   "q" <> "" /\
   net_odd_summaries 0 (SearchGet "q" 3) =
     Response 200
       (Some (JArr [JStr "q"; JArr [JStr "A"; JStr "B"];
                    JArr [JStr ""; JStr ""]; JArr [JStr "u1"; JStr "u2"]])) /\
   ~ (400 <= 200 < 600)%Z /\
   [JStr "A"; JStr "B"] !! 0 = Some (JStr "A") /\
   [JStr "u1"; JStr "u2"] !! 0 = Some (JStr "u1") /\
   net_odd_summaries 1 (SummaryGet (Some "A")) =
     Response 200 (Some (JObj [("title", JStr "A")])) /\
   no_extract (Some (JObj [("title", JStr "A")])) /\
   shallow sample_limit
     (records net_odd_summaries 1
        (zip [JStr "A"; JStr "B"] [JStr "u1"; JStr "u2"]))) /\
  exists v st' rs,
    open_book_search sample_limit net_odd_summaries "q" 3 init_state = Some (Ret v, st') /\
    represents 0 (objects st') v (JArr rs) = true /\
    rs !! 0 = Some (record (JStr "A") (JStr "u1") (JStr "")).
Proof.
  split; [split_and!; evaluate |].
  apply (summary_without_extract_is_empty sample_limit net_odd_summaries
           "q" 3 init_state
           200%Z (JStr "q") [JStr "A"; JStr "B"] (JArr [JStr ""; JStr ""])
           [JStr "u1"; JStr "u2"] [] 0 (JStr "A") (JStr "u1") 200%Z
           (Some (JObj [("title", JStr "A")]))); evaluate.
Defined.

(** X11.  When the summary reply of the [i]-th pair has status 200 and an
    object with the key [extract], and no record goes deeper than
    [copy.deepcopy] can follow, the summary of the [i]-th record is the
    value under that key as it is, whatever its type: a [null] or a number
    is not turned into a string. *)
Theorem summary_is_the_extract_as_is
    lim net q n st s x0 titles x2 urls rest i title url kvs t :
  assoc (q, n) (cache st) = None ->
  q <> "" ->
  net (length (log st)) (SearchGet q n) =
    Response s (Some (JArr (x0 :: JArr titles :: x2 :: JArr urls :: rest))) ->
  ~ (400 <= s < 600)%Z ->
  titles !! i = Some title ->
  urls !! i = Some url ->
  net (S (length (log st)) + i) (SummaryGet (json_text title)) =
    Response 200 (Some (JObj kvs)) ->
  assoc "extract" kvs = Some t ->
  shallow lim (records net (S (length (log st))) (zip titles urls)) ->
  exists v st' rs,
    open_book_search lim net q n st = Some (Ret v, st') /\
    represents 0 (objects st') v (JArr rs) = true /\
    rs !! i = Some (record title url t).
Proof.
  intros Ea Hq Hn Hs Ht Hu Hr Hk Hd.
  destruct (answered_miss lim net q n st s x0 titles x2 urls rest Ea Hq Hn Hs)
    as (r & st' & vs0 & E & (v & -> & Hv)%copied_shallow & _); [|done].
  eexists v, st', _. split_and!; [exact E | exact Hv |].
  rewrite (records_lookup net _ _ i (title, url)).
  - cbn [fst snd]. rewrite Hr. simpl. by rewrite Hk.
  - apply lookup_zip_with_Some. by exists title, url.
Qed.

Lemma summary_is_the_extract_as_is_witness :
  (assoc ("q", 3%Z) (cache init_state) = None /\
   "q" <> "" /\
   net_odd_summaries 0 (SearchGet "q" 3) =
     Response 200
       (Some (JArr [JStr "q"; JArr [JStr "A"; JStr "B"];
                    JArr [JStr ""; JStr ""]; JArr [JStr "u1"; JStr "u2"]])) /\
   ~ (400 <= 200 < 600)%Z /\
   [JStr "A"; JStr "B"] !! 1 = Some (JStr "B") /\
   [JStr "u1"; JStr "u2"] !! 1 = Some (JStr "u2") /\
   net_odd_summaries 2 (SummaryGet (Some "B")) =
     Response 200 (Some (JObj [("extract", JNull)])) /\
   assoc "extract" [("extract", JNull)] = Some JNull /\
   shallow sample_limit
     (records net_odd_summaries 1
        (zip [JStr "A"; JStr "B"] [JStr "u1"; JStr "u2"]))) /\
  exists v st' rs,
    open_book_search sample_limit net_odd_summaries "q" 3 init_state = Some (Ret v, st') /\
    represents 0 (objects st') v (JArr rs) = true /\
    rs !! 1 = Some (record (JStr "B") (JStr "u2") JNull).
Proof.
  split; [split_and!; evaluate |].
  apply (summary_is_the_extract_as_is sample_limit net_odd_summaries
           "q" 3 init_state
           200%Z (JStr "q") [JStr "A"; JStr "B"] (JArr [JStr ""; JStr ""])
           [JStr "u1"; JStr "u2"] [] 1 (JStr "B") (JStr "u2")
           [("extract", JNull)] JNull); evaluate.
Defined.

(** ** A search body that is not JSON *)

(** X12.  When the search reply has a status [raise_for_status] accepts but
    a body that is not JSON, the call returns the empty list after that one
    request and stores the empty tuple under the key: the failure is
    memoized like a network error. *)
Theorem undecodable_search_is_memoized lim net q n st s :
  assoc (q, n) (cache st) = None ->
  q <> "" ->
  net (length (log st)) (SearchGet q n) = Response s None ->
  exists v st',
    open_book_search lim net q n st = Some (Ret v, st') /\
    represents 0 (objects st') v (JArr []) = true /\
    log st' = log st ++ [SearchGet q n] /\
    assoc (q, n) (cache st') = Some [].
Proof.
  intros Ea Hq Hn. pose proof (miss_call lim net q n st Ea) as Hm.
  unfold search_value, search_requests in Hm.
  rewrite bool_decide_eq_false_2, Hn in Hm by done.
  assert (search_data (Response s None) = None) as Hd.
  { simpl. by case_bool_decide. }
  rewrite Hd in Hm.
  destruct Hm as (r & vs & e1 & e2 & E & ->%Forall2_nil_inv_r
                     & (v & -> & Hv)%copied_shallow); [|apply shallow_nil].
  eexists v, _. split_and!; [exact E | | done |].
  - simpl. eapply represents_lower; [|done]. lia.
  - simpl. by apply lru_store_assoc.
Qed.

Lemma undecodable_search_is_memoized_witness :
  (assoc ("q", 3%Z) (cache init_state) = None /\
   "q" <> "" /\
   net_html (length (log init_state)) (SearchGet "q" 3) = Response 200 None) /\
  exists v st',
    open_book_search sample_limit net_html "q" 3 init_state = Some (Ret v, st') /\
    represents 0 (objects st') v (JArr []) = true /\
    log st' = log init_state ++ [SearchGet "q" 3] /\
    assoc ("q", 3%Z) (cache st') = Some [].
Proof.
  split; [by split_and! |].
  apply (undecodable_search_is_memoized sample_limit net_html "q" 3 init_state 200%Z); done.
Defined.

(** ** Objects: what a call allocates and what it leaves alone *)

Lemma represents_reach_within lo h ext v t l :
  represents lo h v t = true -> reachable (h ++ ext) v l -> lo <= l < length h.
Proof.
  revert v. induction t as [| | | |ts IH|kvs IH] using json_induction;
    intros v H R; try (destruct v; try done; inversion R; fail).
  - apply represents_arr in H as (l0 & vs & -> & Hlo & Hl & F).
    pose proof (lookup_lt_Some _ _ _ Hl) as Hlt.
    inversion R as [|? o v' ? Ho Hin R']; subst; [lia|].
    rewrite (lookup_app_l_Some _ _ _ _ Hl) in Ho. simplify_eq. simpl in Hin.
    apply list_elem_of_lookup_1 in Hin as [i Hi].
    destruct (Forall2_lookup_l _ _ _ _ _ F Hi) as (t' & Ht' & _ & Hr).
    eapply (Forall_lookup_1 _ _ _ _ IH Ht'); done.
  - apply represents_obj in H as (l0 & es & -> & Hlo & Hl & F).
    pose proof (lookup_lt_Some _ _ _ Hl) as Hlt.
    inversion R as [|? o v' ? Ho Hin R']; subst; [lia|].
    rewrite (lookup_app_l_Some _ _ _ _ Hl) in Ho. simplify_eq. simpl in Hin.
    apply list_elem_of_fmap in Hin as (e & -> & Hin).
    apply list_elem_of_lookup_1 in Hin as [i Hi].
    destruct (Forall2_lookup_l _ _ _ _ _ F Hi) as (kv & Hkv & _ & _ & Hr).
    eapply (Forall_lookup_1 _ _ _ _ IH Hkv); done.
Qed.

(** A call that returns: the cache lies in the heap the call found extended
    by [e1], the result above it. *)
Lemma call_ret_grows lim net q n st v st1 :
  cache_ok st ->
  open_book_search lim net q n st = Some (Ret v, st1) ->
  exists e1 ext ts,
    objects st1 = (objects st ++ e1) ++ ext /\
    cache_inv (objects st ++ e1) (cache st1) /\
    represents (length (objects st ++ e1)) (objects st1) v (JArr ts) = true.
Proof.
  intros Hok E. destruct (assoc (q, n) (cache st)) as [vs|] eqn:Ea.
  - destruct (cached_entry_ok _ _ _ Hok Ea) as [_ (ts & F)]. simpl in F.
    destruct (hit_call lim net q n st vs ts Ea F) as (r & ext & E' & Hr).
    rewrite E' in E. simplify_eq. apply copied_ret in Hr as [_ Hv]. simpl.
    exists [], ext, ts. rewrite !app_nil_r.
    split_and!; [done | by apply cache_inv_touch | done].
  - pose proof (miss_call lim net q n st Ea) as Hm.
    destruct (search_value _ _ _ _) as [ts|e] eqn:Es.
    2: { destruct Hm as (e1 & E'). rewrite E' in E. simplify_eq. }
    destruct Hm as (r & vs & e1 & e2 & E' & F & Hr).
    rewrite E' in E. simplify_eq. apply copied_ret in Hr as [_ Hv]. simpl.
    exists e1, e2, ts. split_and!; [done | | done].
    apply cache_inv_store; [by apply cache_inv_app|].
    by eapply stored_entry_ok.
Qed.

Lemma call_grows lim net q n st r st' :
  cache_ok st ->
  open_book_search lim net q n st = Some (r, st') ->
  exists ext, objects st' = objects st ++ ext.
Proof.
  intros Hok E. destruct (assoc (q, n) (cache st)) as [vs|] eqn:Ea.
  - destruct (cached_entry_ok _ _ _ Hok Ea) as [_ (ts & F)]. simpl in F.
    destruct (hit_call lim net q n st vs ts Ea F) as (r' & ext & E' & Hr).
    rewrite E' in E. simplify_eq. by exists ext.
  - pose proof (miss_call lim net q n st Ea) as Hm.
    destruct (search_value _ _ _ _) as [ts|e].
    + destruct Hm as (r' & vs & e1 & e2 & E' & _).
      rewrite E' in E. simplify_eq. simpl. exists (e1 ++ e2).
      by rewrite app_assoc.
    + destruct Hm as (e1 & E'). rewrite E' in E. simplify_eq. by exists e1.
Qed.

(** X13.  After a call that returns, no object that can be reached from the
    returned list can be reached from any tuple in the cache: the caller is
    never handed an object of the cache. *)
Theorem result_never_aliases_cache lim net q n st v st1 :
  cache_ok st ->
  open_book_search lim net q n st = Some (Ret v, st1) ->
  forall e cv l,
    e ∈ cache st1 -> cv ∈ e.2 ->
    reachable (objects st1) cv l -> ~ reachable (objects st1) v l.
Proof.
  intros Hok E e cv l He Hcv Rc Rv.
  destruct (call_ret_grows lim net q n st v st1 Hok E)
    as (e1 & ext & ts & Eh & (_ & _ & Hc) & Hv).
  rewrite Forall_forall in Hc. destruct (Hc e He) as [_ (tc & F)].
  apply list_elem_of_lookup_1 in Hcv as [i Hi].
  destruct (Forall2_lookup_l _ _ _ _ _ F Hi) as (t & _ & Ht).
  rewrite Eh in Rc.
  pose proof (represents_reach_within _ _ _ _ _ _ Ht Rc).
  pose proof (represents_reach _ _ _ _ _ Hv Rv). lia.
Qed.

Lemma result_never_aliases_cache_witness :
  (cache_ok init_state /\
   open_book_search sample_limit net_ab "q" 3 init_state = Some (Ret (VRef 10), state_ab)) /\
  forall e cv l,
    e ∈ cache state_ab -> cv ∈ e.2 ->
    reachable (objects state_ab) cv l ->
    ~ reachable (objects state_ab) (VRef 10) l.
Proof.
  split; [split; [exact init_state_ok | vm_compute; reflexivity]|].
  apply (result_never_aliases_cache sample_limit net_ab "q" 3 init_state (VRef 10) state_ab);
    [exact init_state_ok | vm_compute; reflexivity].
Defined.

(** X14.  Two calls, one after the other and with any arguments, return
    lists that share no object: what one caller does to its result cannot
    show in the result of the other. *)
Theorem results_share_no_object lim net q n q' n' st v1 st1 v2 st2 :
  cache_ok st ->
  open_book_search lim net q n st = Some (Ret v1, st1) ->
  open_book_search lim net q' n' st1 = Some (Ret v2, st2) ->
  forall l,
    reachable (objects st1) v1 l -> ~ reachable (objects st2) v2 l.
Proof.
  intros Hok E1 E2 l R1 R2.
  assert (cache_ok st1) as Hok1.
  { destruct (call_total lim net q n st Hok) as (r & st' & E & Hok').
    rewrite E in E1. by simplify_eq. }
  destruct (call_ret_grows lim net q n st v1 st1 Hok E1)
    as (e1 & ext & ts & _ & _ & Hv1).
  destruct (call_ret_grows lim net q' n' st1 v2 st2 Hok1 E2)
    as (e1' & ext' & ts' & _ & _ & Hv2).
  rewrite <- (app_nil_r (objects st1)) in R1.
  pose proof (represents_reach_within _ _ _ _ _ _ Hv1 R1).
  pose proof (represents_reach _ _ _ _ _ Hv2 R2).
  rewrite length_app in *. lia.
Qed.

Lemma results_share_no_object_witness :
  (cache_ok init_state /\
   open_book_search sample_limit net_ab "q" 3 init_state = Some (Ret (VRef 10), state_ab) /\
   open_book_search sample_limit net_ab "q" 3 state_ab = Some (Ret (VRef 13), state_ab2)) /\
  forall l,
    reachable (objects state_ab) (VRef 10) l ->
    ~ reachable (objects state_ab2) (VRef 13) l.
Proof.
  split; [split_and!; [exact init_state_ok | vm_compute; reflexivity
                      | vm_compute; reflexivity]|].
  apply (results_share_no_object sample_limit net_ab "q" 3 "q" 3 init_state
           (VRef 10) state_ab (VRef 13) state_ab2);
    [exact init_state_ok | vm_compute; reflexivity | vm_compute; reflexivity].
Defined.

(** X15.  A call, whether it returns or raises, changes no object that
    existed before it: it only allocates.  In particular it never writes to
    an object of the cache or to a list it returned earlier. *)
Theorem existing_objects_untouched lim net q n st r st' :
  cache_ok st ->
  open_book_search lim net q n st = Some (r, st') ->
  length (objects st) <= length (objects st') /\
  forall l o, objects st !! l = Some o -> objects st' !! l = Some o.
Proof.
  intros Hok E. destruct (call_grows lim net q n st r st' Hok E) as [ext ->].
  split; [rewrite length_app; lia|].
  intros l o Hl. by apply lookup_app_l_Some.
Qed.

Lemma state_ab_ok : cache_ok state_ab.
Proof.
  destruct (call_total sample_limit net_ab "q" 3 init_state init_state_ok)
    as (r & st' & E & Hok).
  vm_compute in E. by simplify_eq.
Qed.

Lemma existing_objects_untouched_witness :
  (cache_ok state_ab /\
   open_book_search sample_limit net_ab "q" 3 state_ab = Some (Ret (VRef 13), state_ab2)) /\
  length (objects state_ab) <= length (objects state_ab2) /\
  forall l o,
    objects state_ab !! l = Some o -> objects state_ab2 !! l = Some o.
Proof.
  split; [split; [exact state_ab_ok | vm_compute; reflexivity]|].
  apply (existing_objects_untouched sample_limit net_ab "q" 3 state_ab
           (Ret (VRef 13)) state_ab2);
    [exact state_ab_ok | vm_compute; reflexivity].
Defined.

(** ** The cache: other keys, the empty query, staleness *)

Lemma assoc_drop_key_ne k k' c :
  k' <> k -> assoc k' (drop_key k c) = assoc k' c.
Proof.
  intros Hne. unfold drop_key. induction c as [|e c IH]; [done|].
  destruct (decide (e.1 <> k)) as [He|He].
  - rewrite filter_cons_True by done. simpl. by rewrite IH.
  - rewrite filter_cons_False by done. rewrite IH. simpl.
    case_decide; [|done]. destruct He. congruence.
Qed.

Lemma assoc_tail_Some {V} (k : key) (c : list (key * V)) x :
  NoDup (c.*1) -> assoc k (tail c) = Some x -> assoc k c = Some x.
Proof.
  destruct c as [|e c]; [done|]. simpl.
  intros [Hn _]%NoDup_cons Hx. case_decide as Hk; [|done].
  destruct Hn. subst k. apply assoc_Some_elem in Hx.
  by apply (list_elem_of_fmap_2 fst) in Hx.
Qed.

(** X16.  A call never alters the entry of another key.  Whatever is stored
    under another key after the call was stored under it before; and while
    the cache holds fewer than 128 keys no other key loses its entry
    either. *)
Theorem other_keys_unaltered lim net q n st r st' (k : key) :
  cache_ok st ->
  open_book_search lim net q n st = Some (r, st') ->
  k <> (q, n) ->
  (forall vs, assoc k (cache st') = Some vs -> assoc k (cache st) = Some vs) /\
  (length (cache st) < 128 -> assoc k (cache st') = assoc k (cache st)).
Proof.
  intros Hok E Hk.
  assert (forall o : option (list pyval),
            match o with Some v => Some v | None => None end = o) as Hid
    by (by intros []).
  destruct (assoc (q, n) (cache st)) as [vs|] eqn:Ea.
  - destruct (cached_entry_ok _ _ _ Hok Ea) as [_ (ts & F)]. simpl in F.
    destruct (hit_call lim net q n st vs ts Ea F) as (r' & ext & E' & _).
    rewrite E' in E. simplify_eq. simpl. unfold lru_touch.
    rewrite assoc_app, (assoc_drop_key_ne (q, n) k) by exact Hk. simpl.
    rewrite decide_False by exact Hk. rewrite Hid.
    split; [intros vs' H; exact H | intros _; reflexivity].
  - pose proof (miss_call lim net q n st Ea) as Hm.
    destruct (search_value _ _ _ _) as [ts|e].
    2: { destruct Hm as (e1 & E'). rewrite E' in E. by simplify_eq. }
    destruct Hm as (r' & vs & e1 & e2 & E' & _).
    rewrite E' in E. simplify_eq. simpl. unfold lru_store.
    destruct Hok as (Hd & _ & _). unfold key in *. rewrite Ea.
    case_bool_decide as Hfull; rewrite assoc_app; simpl;
      rewrite decide_False by exact Hk; rewrite Hid.
    + split; [|unfold maxsize in Hfull; lia].
      intros vs' Hvs. by apply assoc_tail_Some.
    + split; [intros vs' H; exact H | intros _; reflexivity].
Qed.

Lemma other_keys_unaltered_witness :
  (cache_ok state_ab /\
   open_book_search sample_limit net_down "other" 3 state_ab = Some (Ret (VRef 11), state_ab3) /\
   ("q", 3%Z) <> ("other", 3%Z)) /\
  (forall vs,
     assoc ("q", 3%Z) (cache state_ab3) = Some vs ->
     assoc ("q", 3%Z) (cache state_ab) = Some vs) /\
  (length (cache state_ab) < 128 ->
   assoc ("q", 3%Z) (cache state_ab3) = assoc ("q", 3%Z) (cache state_ab)).
Proof.
  split; [split_and!; [exact state_ab_ok | vm_compute; reflexivity | done]|].
  apply (other_keys_unaltered sample_limit net_down "other" 3 state_ab (Ret (VRef 11))
           state_ab3 ("q", 3%Z));
    [exact state_ab_ok | vm_compute; reflexivity | done].
Defined.

(** X17.  The decorator wraps the whole function, the test for the empty
    query included: an empty query that is not cached yet makes no request
    but does take an entry of the cache, and when the cache is full it
    evicts the least recently used key like any other miss. *)
Theorem empty_query_takes_an_entry lim net n st :
  cache_ok st ->
  assoc ("", n) (cache st) = None ->
  exists v st',
    open_book_search lim net "" n st = Some (Ret v, st') /\
    log st' = log st /\
    assoc ("", n) (cache st') = Some [] /\
    length (cache st') = min 128 (S (length (cache st))) /\
    (length (cache st) = 128 ->
     (cache st').*1 = tail ((cache st).*1) ++ [("", n)]).
Proof.
  intros (_ & Hlen & _) Ea. pose proof (miss_call lim net "" n st Ea) as Hm.
  unfold search_value, search_requests in Hm. simpl in Hm.
  destruct Hm as (r & vs & e1 & e2 & E & ->%Forall2_nil_inv_r
                     & (v & -> & _)%copied_shallow); [|apply shallow_nil].
  eexists v, _. split_and!; [exact E | | | |]; cbn [cache log].
  - by rewrite app_nil_r.
  - by apply lru_store_assoc.
  - unfold lru_store, key in *. rewrite Ea. unfold maxsize in *.
    case_bool_decide; rewrite length_app; cbn [length].
    + assert (forall (A : Type) (l : list A), length (tail l) = length l - 1)
        as Ht by (intros ? []; simpl; lia).
      rewrite Ht. lia.
    + lia.
  - intros Hfull. rewrite lru_store_keys, length_fmap, Hfull by done.
    by rewrite bool_decide_eq_true_2 by (unfold maxsize; lia).
Qed.

Lemma empty_query_takes_an_entry_witness :
  (cache_ok state_ab /\ assoc ("", 3%Z) (cache state_ab) = None) /\
  exists v st',
    open_book_search sample_limit net_ab "" 3 state_ab = Some (Ret v, st') /\
    log st' = log state_ab /\
    assoc ("", 3%Z) (cache st') = Some [] /\
    length (cache st') = 2 /\
    (length (cache state_ab) = 128 ->
     (cache st').*1 = tail ((cache state_ab).*1) ++ [("", 3%Z)]).
Proof.
  split; [split; [exact state_ab_ok | done]|].
  apply (empty_query_takes_an_entry sample_limit net_ab 3 state_ab);
    [exact state_ab_ok | done].
Defined.

(** X18.  A stored result is never refreshed: once a call has returned, the
    same call returns the same documents and makes no request whatever the
    network would answer now.  (Both calls are made where [copy.deepcopy]
    can go as deep, [lim].) *)
Theorem cached_answer_ignores_network lim net net' q n st v st1 :
  cache_ok st ->
  open_book_search lim net q n st = Some (Ret v, st1) ->
  exists t v2 st2,
    represents 0 (objects st1) v t = true /\
    open_book_search lim net' q n st1 = Some (Ret v2, st2) /\
    represents 0 (objects st2) v2 t = true /\
    log st2 = log st1.
Proof.
  intros Hok E.
  destruct (call_ret lim net q n st v st1 Hok E)
    as (vs & ts & hc & ext & Eh & _ & Ea & F & Hv & Hd).
  assert (Forall2 (fun v t => represents 0 (objects st1) v t = true) vs ts) as F1.
  { rewrite Eh. eapply Forall2_impl; [done|]. intros ???. by apply represents_app. }
  destruct (hit_call lim net' q n st1 vs ts Ea F1)
    as (r2 & e2 & E2 & (v2 & -> & Hv2)%copied_shallow); [|done].
  eexists (JArr ts), v2, _. split_and!; [| exact E2 | |done].
  - rewrite Eh. eapply represents_lower; [|done]. lia.
  - simpl. eapply represents_lower; [|done]. lia.
Qed.

Lemma cached_answer_ignores_network_witness :
  (cache_ok init_state /\
   open_book_search sample_limit net_ab "q" 3 init_state = Some (Ret (VRef 10), state_ab)) /\
  exists t v2 st2,
    represents 0 (objects state_ab) (VRef 10) t = true /\
    open_book_search sample_limit net_down "q" 3 state_ab = Some (Ret v2, st2) /\
    represents 0 (objects st2) v2 t = true /\
    log st2 = log state_ab.
Proof.
  split; [split; [exact init_state_ok | vm_compute; reflexivity]|].
  apply (cached_answer_ignores_network sample_limit net_ab net_down "q" 3 init_state
           (VRef 10) state_ab);
    [exact init_state_ok | vm_compute; reflexivity].
Defined.

(** ** The shape of what is returned *)





